(** * A verification model of the exchange core: models.py, orderbook.py, matcher.py

    Shallow embedding of the Python sources of [exchange_core].
    - Python objects [Order], [Trade], [OrderBook] become records; the
      book's dicts become stdpp [gmap]s, its deques and sorted price arrays
      become lists.
    - Mutation of an [Order] object stored in [OrderBook.orders] is written
      as an update of the map entry under which the object lives.
    - Python exceptions ([ValueError], [TypeError]) become the [Err] branch
      of a small result type; recursion and [while] loops are run on fuel,
      and running out of fuel is reported as [NonTermination]. *)

From Stdlib Require Import ZArith Lia.
From stdpp Require Import base gmap strings list sorting.

Open Scope Z_scope.

(** Python exceptions raised by the modelled code, plus non-termination. *)
Inductive PyError := ValueError | TypeError | NonTermination.

Inductive result (A : Type) : Type :=
| Ok (a : A)
| Err (e : PyError).
Arguments Ok {A} a.
Arguments Err {A} e.

(** * models.py *)

Inductive Side := BUY | SELL.
Inductive OrderType := LIMIT | MARKET.
Inductive OrderStatus := NEW | RESTING | PARTIAL | FILLED | CANCELED | REJECTED.

#[global] Instance Side_eq_dec : EqDecision Side.
Proof. solve_decision. Defined.
#[global] Instance OrderType_eq_dec : EqDecision OrderType.
Proof. solve_decision. Defined.
#[global] Instance OrderStatus_eq_dec : EqDecision OrderStatus.
Proof. solve_decision. Defined.

Module Order.
(** The dataclass [Order]; [remaining_qty], [status] and [active] are the
    mutable fields. *)
Record t := mk {
  user_id : string;
  symbol : string;
  side : Side;
  type : OrderType;
  qty : Z;
  price_cents : option Z;
  client_order_id : option string;
  order_id : string;
  created_ms : Z;
  remaining_qty : Z;
  status : OrderStatus;
  active : bool
}.

Definition with_remaining_qty (o : t) (r : Z) : t :=
  mk (user_id o) (symbol o) (side o) (type o) (qty o) (price_cents o)
     (client_order_id o) (order_id o) (created_ms o) r (status o) (active o).
Definition with_status (o : t) (s : OrderStatus) : t :=
  mk (user_id o) (symbol o) (side o) (type o) (qty o) (price_cents o)
     (client_order_id o) (order_id o) (created_ms o) (remaining_qty o) s (active o).
Definition with_active (o : t) (a : bool) : t :=
  mk (user_id o) (symbol o) (side o) (type o) (qty o) (price_cents o)
     (client_order_id o) (order_id o) (created_ms o) (remaining_qty o) (status o) a.

(** [Order(...)] followed by [__post_init__]: validation, then
    [remaining_qty = qty]; [status] and [active] take their defaults. *)
Definition new (user_id symbol : string) (side : Side) (type : OrderType)
    (qty : Z) (price_cents : option Z) (client_order_id : option string)
    (order_id : string) (created_ms : Z) : result t :=
  let o := mk user_id symbol side type qty price_cents client_order_id
              order_id created_ms qty NEW true in
  if qty <=? 0 then Err ValueError
  else match type with
       | LIMIT =>
           match price_cents with
           | None => Err ValueError
           | Some p => if p <=? 0 then Err ValueError else Ok o
           end
       | MARKET =>
           match price_cents with
           | Some _ => Err ValueError
           | None => Ok o
           end
       end.
End Order.

Module Trade.
(** The frozen dataclass [Trade]. [price_cents] holds [maker.price_cents],
    an [Optional[int]] in the source. *)
Record t := mk {
  trade_id : string;
  symbol : string;
  price_cents : option Z;
  qty : Z;
  maker_order_id : string;
  taker_order_id : string;
  ts_ms : Z
}.
End Trade.

(** The values returned by the [k]-th calls of [new_id()] (uuid4) and
    [now_ms()] made while one [match_order] call builds its trades. *)
Record Env := {
  new_id_at : nat -> string;
  now_ms_at : nat -> Z
}.

(** * orderbook.py *)

(** [bisect.insort] (that is [insort_right]) on a sorted list: insert [x]
    before the first element greater than [x]. *)
Fixpoint insort (x : Z) (l : list Z) : list Z :=
  match l with
  | [] => [x]
  | y :: l' => if x <? y then x :: l else y :: insort x l'
  end.

(** [bisect.bisect_left] on a sorted list: the index of the first element
    that is not smaller than [x]. *)
Fixpoint bisect_left (l : list Z) (x : Z) : nat :=
  match l with
  | [] => O
  | y :: l' => if y <? x then S (bisect_left l' x) else O
  end.

Module OrderBook.
Record t := mk {
  symbol : string;
  orders : gmap string Order.t;
  bids : gmap Z (list string);
  asks : gmap Z (list string);
  bid_prices : list Z;
  ask_prices : list Z
}.

Definition init (symbol : string) : t := mk symbol ∅ ∅ ∅ [] [].

Definition set_orders (m : gmap string Order.t) (b : t) : t :=
  mk (symbol b) m (bids b) (asks b) (bid_prices b) (ask_prices b).

(** [self.bids if side == Side.BUY else self.asks] and the matching
    sorted price array. *)
Definition levels (s : Side) (b : t) : gmap Z (list string) :=
  match s with BUY => bids b | SELL => asks b end.
Definition prices (s : Side) (b : t) : list Z :=
  match s with BUY => bid_prices b | SELL => ask_prices b end.
Definition set_levels (s : Side) (L : gmap Z (list string)) (b : t) : t :=
  match s with
  | BUY => mk (symbol b) (orders b) L (asks b) (bid_prices b) (ask_prices b)
  | SELL => mk (symbol b) (orders b) (bids b) L (bid_prices b) (ask_prices b)
  end.
Definition set_prices (s : Side) (P : list Z) (b : t) : t :=
  match s with
  | BUY => mk (symbol b) (orders b) (bids b) (asks b) P (ask_prices b)
  | SELL => mk (symbol b) (orders b) (bids b) (asks b) (bid_prices b) P
  end.

(** [o and o.active and o.remaining_qty > 0] *)
Definition eligible (o : Order.t) : bool :=
  Order.active o && bool_decide (0 < Order.remaining_qty o).

(** [_ensure_price_level] *)
Definition ensure_price_level (s : Side) (p : Z) (b : t) : t :=
  match levels s b !! p with
  | Some _ => b
  | None => set_prices s (insort p (prices s b))
              (set_levels s (<[p := []]> (levels s b)) b)
  end.

(** [_cleanup_level_if_empty] *)
Definition cleanup_level_if_empty (s : Side) (p : Z) (b : t) : t :=
  match levels s b !! p with
  | Some [] =>
      let b1 := set_levels s (delete p (levels s b)) b in
      let ps := prices s b1 in
      let i := bisect_left ps p in
      if (i <? length ps)%nat && bool_decide (ps !! i = Some p)
      then set_prices s (delete i ps) b1
      else b1
  | _ => b
  end.

(** The [while q] loop of [_pop_next_active_at_price]: [popleft] every
    head entry that is missing or ineligible; stop at the first eligible
    one, which stays in the deque. The order is returned with the key
    under which it lives in [orders]. *)
Fixpoint skip_ineligible (os : gmap string Order.t) (q : list string)
    : list string * option (string * Order.t) :=
  match q with
  | [] => ([], None)
  | oid :: q' =>
      match os !! oid with
      | Some o => if eligible o then (q, Some (oid, o)) else skip_ineligible os q'
      | None => skip_ineligible os q'
      end
  end.

(** [_pop_next_active_at_price] *)
Definition pop_next_active_at_price (s : Side) (p : Z) (b : t)
    : t * option (string * Order.t) :=
  match levels s b !! p with
  | None | Some [] => (b, None)
  | Some q =>
      let '(q', r) := skip_ineligible (orders b) q in
      let b1 := set_levels s (<[p := q']> (levels s b)) b in
      match r with
      | Some x => (b1, Some x)
      | None => (cleanup_level_if_empty s p b1, None)
      end
  end.

(** [add_resting_limit]: the object is stored in [orders] first and its
    status set to RESTING afterwards, so the stored entry is RESTING. *)
Definition add_resting_limit (o : Order.t) (b : t) : result (t * Order.t) :=
  if negb (bool_decide (Order.symbol o = symbol b)) then Err ValueError
  else match Order.price_cents o with
       | None => Err ValueError
       | Some p =>
           let o' := Order.with_status o RESTING in
           let b1 := set_orders (<[Order.order_id o := o']> (orders b)) b in
           let b2 := ensure_price_level (Order.side o) p b1 in
           let q := default [] (levels (Order.side o) b2 !! p) in
           let b3 := set_levels (Order.side o)
                       (<[p := q ++ [Order.order_id o]]> (levels (Order.side o) b2)) b2 in
           Ok (b3, o')
       end.

(** [best_bid] is [bid_prices[-1]], [best_ask] is [ask_prices[0]]. *)
Definition best_bid (b : t) : option Z := last (bid_prices b).
Definition best_ask (b : t) : option Z := head (ask_prices b).
Definition best (s : Side) (b : t) : option Z :=
  match s with BUY => best_bid b | SELL => best_ask b end.

(** [get_best_resting], which calls itself again whenever the best level
    held no eligible order. Each call either shortens the side's price
    array or leaves the book unchanged (and then recurses forever), so
    [length prices + 1] calls decide it. *)
Fixpoint get_best_resting_go (fuel : nat) (s : Side) (b : t)
    : result (t * option (string * Order.t)) :=
  match fuel with
  | O => Err NonTermination
  | S fuel' =>
      match best s b with
      | None => Ok (b, None)
      | Some p =>
          match pop_next_active_at_price s p b with
          | (b', Some x) => Ok (b', Some x)
          | (b', None) => get_best_resting_go fuel' s b'
          end
      end
  end.

Definition get_best_resting (s : Side) (b : t) : result (t * option (string * Order.t)) :=
  get_best_resting_go (S (length (prices s b))) s b.

(** [cancel] *)
Definition cancel (order_id : string) (b : t) : t * bool :=
  match orders b !! order_id with
  | None => (b, false)
  | Some o =>
      if negb (Order.active o) || (Order.remaining_qty o =? 0) then (b, false)
      else
        let o' := Order.with_status
                    (Order.with_remaining_qty (Order.with_active o false) 0) CANCELED in
        (set_orders (<[order_id := o']> (orders b)) b, true)
  end.

(** Python slices [l[start:]] and [l[:stop]], negative bounds included. *)
Definition py_norm (n : Z) (len : nat) : nat :=
  let L := Z.of_nat len in
  if n <? 0 then Z.to_nat (Z.max 0 (n + L)) else Z.to_nat (Z.min n L).
Definition py_slice_from {A} (l : list A) (start : Z) : list A :=
  drop (py_norm start (length l)) l.
Definition py_slice_to {A} (l : list A) (stop : Z) : list A :=
  take (py_norm stop (length l)) l.

(** The inner loop of [snapshot_l2]: the sum of [remaining_qty] over the
    eligible orders of one price queue. *)
Definition level_total (os : gmap string Order.t) (q : list string) : Z :=
  fold_left (fun total oid =>
               match os !! oid with
               | Some o => if eligible o then total + Order.remaining_qty o else total
               | None => total
               end) q 0.

(** [snapshot_l2]; the pair is the dict [{"bids": ..., "asks": ...}]. *)
Definition snapshot_l2 (depth : Z) (b : t) : list (Z * Z) * list (Z * Z) :=
  let bids_out := map (fun price => (price, level_total (orders b) (default [] (bids b !! price))))
                      (rev (py_slice_from (bid_prices b) (- depth))) in
  let asks_out := map (fun price => (price, level_total (orders b) (default [] (asks b !! price))))
                      (py_slice_to (ask_prices b) depth) in
  (bids_out, asks_out).
End OrderBook.

(** * matcher.py *)

Module Matcher.
Import OrderBook.

Definition opposite (s : Side) : Side :=
  match s with BUY => SELL | SELL => BUY end.

(** What one pass of the [while] loop ends in: a [break] (with the book
    as the pass left it) or the state for the next test of the loop
    condition. *)
Inductive LoopStep :=
| Break (b : OrderBook.t)
| Continue (b : OrderBook.t) (taker : Order.t) (trades : list Trade.t).

(** The crossing test; comparing [None] with an [int] raises TypeError. *)
Definition crosses (b : OrderBook.t) (taker : Order.t) : result bool :=
  match Order.side taker with
  | BUY =>
      match best_ask b with
      | None => Ok false
      | Some a =>
          match Order.price_cents taker with
          | None => Err TypeError
          | Some tp => Ok (negb (tp <? a))
          end
      end
  | SELL =>
      match best_bid b with
      | None => Ok false
      | Some bd =>
          match Order.price_cents taker with
          | None => Err TypeError
          | Some tp => Ok (negb (bd <? tp))
          end
      end
  end.

(** [remaining == 0 -> FILLED + inactive], otherwise PARTIAL. *)
Definition update_status (o : Order.t) : Order.t :=
  if Order.remaining_qty o =? 0
  then Order.with_active (Order.with_status o FILLED) false
  else Order.with_status o PARTIAL.

(** One pass of the body of the [while taker.remaining_qty > 0] loop. *)
Definition match_step (env : Env) (b : OrderBook.t) (taker : Order.t)
    (trades : list Trade.t) : result LoopStep :=
  match crosses b taker with
  | Err e => Err e
  | Ok false => Ok (Break b)
  | Ok true =>
      match get_best_resting (opposite (Order.side taker)) b with
      | Err e => Err e
      | Ok (b1, None) => Ok (Break b1)
      | Ok (b1, Some (mkey, maker)) =>
          let trade_price := Order.price_cents maker in
          let q := Z.min (Order.remaining_qty taker) (Order.remaining_qty maker) in
          let taker1 := Order.with_remaining_qty taker (Order.remaining_qty taker - q) in
          let maker1 := Order.with_remaining_qty maker (Order.remaining_qty maker - q) in
          let k := length trades in
          let tr := Trade.mk (new_id_at env k) (OrderBook.symbol b1) trade_price q
                             (Order.order_id maker1) (Order.order_id taker1)
                             (now_ms_at env k) in
          let maker2 := update_status maker1 in
          let taker2 := update_status taker1 in
          Ok (Continue (set_orders (<[mkey := maker2]> (orders b1)) b1)
                       taker2 (trades ++ [tr]))
      end
  end.

(** The [while] loop; every pass that does not break lowers the taker's
    remaining quantity by at least one, so [remaining_qty] passes are
    enough fuel. *)
Fixpoint match_loop (env : Env) (fuel : nat) (b : OrderBook.t) (taker : Order.t)
    (trades : list Trade.t) : result (OrderBook.t * Order.t * list Trade.t) :=
  if 0 <? Order.remaining_qty taker then
    match fuel with
    | O => Err NonTermination
    | S fuel' =>
        match match_step env b taker trades with
        | Err e => Err e
        | Ok (Break b') => Ok (b', taker, trades)
        | Ok (Continue b' taker' trades') => match_loop env fuel' b' taker' trades'
        end
    end
  else Ok (b, taker, trades).

Definition reject (o : Order.t) : Order.t :=
  Order.with_active (Order.with_status o REJECTED) false.

(** [match_order(book, taker)]; returns the book, the taker object and
    the trades. *)
Definition match_order (env : Env) (b : OrderBook.t) (taker : Order.t)
    : result (OrderBook.t * Order.t * list Trade.t) :=
  if negb (bool_decide (Order.symbol taker = OrderBook.symbol b)) then Ok (b, reject taker, [])
  else match Order.type taker with
       | MARKET => Ok (b, reject taker, [])
       | LIMIT =>
           match match_loop env (Z.to_nat (Order.remaining_qty taker)) b taker [] with
           | Err e => Err e
           | Ok (b1, t1, trades) =>
               if 0 <? Order.remaining_qty t1 then
                 match add_resting_limit t1 b1 with
                 | Err e => Err e
                 | Ok (b2, t2) => Ok (b2, t2, trades)
                 end
               else Ok (b1, t1, trades)
           end
       end.
End Matcher.

(** * Reachable books *)

Import OrderBook Matcher.

(** An order as a caller builds it: [Order(...)] succeeded, and its id is
    not yet known to the book. *)
Definition fresh (b : OrderBook.t) (o : Order.t) : Prop :=
  Order.new (Order.user_id o) (Order.symbol o) (Order.side o) (Order.type o)
    (Order.qty o) (Order.price_cents o) (Order.client_order_id o)
    (Order.order_id o) (Order.created_ms o) = Ok o
  /\ orders b !! Order.order_id o = None.

(** Books a caller can produce through the public operations. *)
Inductive reachable : OrderBook.t -> Prop :=
| reach_init sym : reachable (init sym)
| reach_match b env o b' o' trades :
    reachable b -> fresh b o -> match_order env b o = Ok (b', o', trades) -> reachable b'
| reach_cancel b oid : reachable b -> reachable (fst (cancel oid b))
| reach_lookup b s b' r :
    reachable b -> get_best_resting s b = Ok (b', r) -> reachable b'.

(** One call of a public operation of the book: [match_order] with a
    fresh taker, [cancel], or the lookup [get_best_resting]. *)
Inductive book_step : OrderBook.t -> OrderBook.t -> Prop :=
| step_match b env o b' o' trades :
    fresh b o -> match_order env b o = Ok (b', o', trades) -> book_step b b'
| step_cancel b oid : book_step b (fst (cancel oid b))
| step_lookup b s b' r : get_best_resting s b = Ok (b', r) -> book_step b b'.

(** ** Book invariants *)

(** The queue of a price level, [self.bids.get(price, [])]. *)
Definition lvl (L : gmap Z (list string)) (p : Z) : list string := default [] (L !! p).

(** A side's prices, best first: bids highest first, asks lowest first. *)
Definition best_first (s : Side) (b : OrderBook.t) : list Z :=
  match s with BUY => rev (bid_prices b) | SELL => ask_prices b end.

(** All queue entries of a side in priority order: better price first,
    and within one price the FIFO order of the deque. *)
Definition flat (s : Side) (b : OrderBook.t) : list string :=
  concat (map (lvl (levels s b)) (best_first s b)).

(** An order held in [orders]: its key, symbol and type, a price, the
    quantity bounds, and the status coherent with [active]. *)
Definition order_ok (sym oid : string) (o : Order.t) : Prop :=
  Order.order_id o = oid /\ Order.symbol o = sym /\ Order.type o = LIMIT /\
  is_Some (Order.price_cents o) /\
  0 <= Order.remaining_qty o <= Order.qty o /\
  ((Order.status o = RESTING \/ Order.status o = PARTIAL) /\ Order.active o = true /\
     0 < Order.remaining_qty o
   \/ (Order.status o = FILLED \/ Order.status o = CANCELED) /\ Order.active o = false /\
     Order.remaining_qty o = 0).

(** One side of the book: sorted duplicate-free price array naming exactly
    the existing levels, no empty deque, no duplicate entry in a deque, and
    every entry an order of that side at that price. *)
Record side_inv (s : Side) (b : OrderBook.t) : Prop := {
  si_sorted : StronglySorted Z.lt (prices s b);
  si_dom : forall p, p ∈ prices s b <-> is_Some (levels s b !! p);
  si_nonempty : forall p q, levels s b !! p = Some q -> q <> [];
  si_nodup : forall p q, levels s b !! p = Some q -> NoDup q;
  si_ref : forall p q oid, levels s b !! p = Some q -> oid ∈ q ->
    exists o, orders b !! oid = Some o /\ Order.side o = s /\ Order.price_cents o = Some p
}.

Record book_inv (b : OrderBook.t) : Prop := {
  bi_orders : forall oid o, orders b !! oid = Some o -> order_ok (symbol b) oid o;
  bi_side : forall s, side_inv s b
}.

(** [x] stands before [m] in the list [F]. *)
Definition ahead (F : list string) (x m : string) : Prop :=
  exists i j, F !! i = Some x /\ F !! j = Some m /\ (i < j)%nat.

(** A strictly better price for a resting order of side [s]: a higher bid,
    a lower ask. *)
Definition better (s : Side) (p1 p2 : Z) : Prop :=
  match s with BUY => p2 < p1 | SELL => p1 < p2 end.

(** [Σ trade.qty] over a list of trades, and over the trades naming [x]
    as maker. *)
Definition sum_qty (ts : list Trade.t) : Z :=
  fold_right (fun tr acc => Trade.qty tr + acc) 0 ts.
Definition sum_maker (x : string) (ts : list Trade.t) : Z :=
  sum_qty (filter (fun tr => Trade.maker_order_id tr = x) ts).

(** The immutable fields of an order. *)
Definition static (o : Order.t) :=
  (Order.user_id o, Order.symbol o, Order.side o, Order.type o, Order.qty o,
   Order.price_cents o, Order.client_order_id o, Order.order_id o, Order.created_ms o).

(** The status state machine of the spec: NEW -> {REJECTED, RESTING,
    FILLED}, RESTING -> {PARTIAL, FILLED, CANCELED}, PARTIAL -> {FILLED,
    CANCELED}; [status_moves] allows staying put as well. *)
Definition status_edge (s s' : OrderStatus) : bool :=
  match s, s' with
  | NEW, (REJECTED | RESTING | FILLED) => true
  | RESTING, (PARTIAL | FILLED | CANCELED) => true
  | PARTIAL, (FILLED | CANCELED) => true
  | _, _ => false
  end.
Definition status_moves (s s' : OrderStatus) : Prop := s = s' \/ status_edge s s' = true.
Definition terminal (s : OrderStatus) : bool :=
  match s with REJECTED | FILLED | CANCELED => true | _ => false end.

(** What is known of a trade produced by [match_order b0 t0], given the
    trades [prev] produced before it. *)
Definition trade_ok (b0 : OrderBook.t) (t0 : Order.t) (prev : list Trade.t) (tr : Trade.t) : Prop :=
  let ms := opposite (Order.side t0) in
  Trade.taker_order_id tr = Order.order_id t0 /\ Trade.symbol tr = symbol b0 /\ 0 < Trade.qty tr /\
  (exists o0, orders b0 !! Trade.maker_order_id tr = Some o0 /\
     Trade.price_cents tr = Order.price_cents o0 /\ Trade.maker_order_id tr ∈ flat ms b0) /\
  (forall x o0, orders b0 !! x = Some o0 -> eligible o0 = true ->
     ahead (flat ms b0) x (Trade.maker_order_id tr) -> sum_maker x prev = Order.remaining_qty o0).

(** The invariant of the [while] loop of [match_order b0 t0], at book [b],
    taker [t] and trades [ts]. *)
Record loop_inv (b0 : OrderBook.t) (t0 : Order.t) (b : OrderBook.t) (t : Order.t)
    (ts : list Trade.t) : Prop := {
  li_book0 : book_inv b0;
  li_book : book_inv b;
  li_sym : symbol b = symbol b0;
  li_own_levels : levels (Order.side t0) b = levels (Order.side t0) b0;
  li_own_prices : prices (Order.side t0) b = prices (Order.side t0) b0;
  li_dom : forall x, is_Some (orders b !! x) <-> is_Some (orders b0 !! x);
  li_taker_out : orders b0 !! Order.order_id t0 = None;
  li_taker_new : Order.status t0 = NEW /\ Order.active t0 = true /\
    is_Some (Order.price_cents t0) /\ Order.symbol t0 = symbol b0 /\ Order.type t0 = LIMIT /\
    Order.remaining_qty t0 = Order.qty t0;
  li_taker_static : static t = static t0;
  li_taker_rem : 0 <= Order.remaining_qty t /\
                 Order.remaining_qty t + sum_qty ts = Order.remaining_qty t0;
  li_taker_status : (t = t0 /\ ts = []) \/
    (Order.status t = PARTIAL /\ Order.active t = true /\ 0 < Order.remaining_qty t) \/
    (Order.status t = FILLED /\ Order.active t = false /\ Order.remaining_qty t = 0);
  li_makers : forall x o0, orders b0 !! x = Some o0 ->
    exists o, orders b !! x = Some o /\ static o = static o0 /\
      Order.remaining_qty o0 - Order.remaining_qty o = sum_maker x ts /\
      status_moves (Order.status o0) (Order.status o);
  li_flat : exists pre, flat (opposite (Order.side t0)) b0 = pre ++ flat (opposite (Order.side t0)) b /\
    forall x o, x ∈ pre -> orders b !! x = Some o -> Order.remaining_qty o = 0;
  li_trades : forall j tr, ts !! j = Some tr -> trade_ok b0 t0 (take j ts) tr
}.

(** What a successful [match_order b0 t0] call returning [(b, t, ts)]
    leaves behind. *)
Record match_post (b0 : OrderBook.t) (t0 : Order.t) (b : OrderBook.t) (t : Order.t)
    (ts : list Trade.t) : Prop := {
  mp_book : book_inv b;
  mp_sym : symbol b = symbol b0;
  mp_taker_static : static t = static t0;
  mp_taker_rem : Order.remaining_qty t + sum_qty ts = Order.remaining_qty t0;
  mp_taker_status :
    (Order.status t = REJECTED /\ Order.active t = false /\ b = b0 /\ ts = []) \/
    (Order.status t = RESTING /\ Order.active t = true /\ 0 < Order.remaining_qty t /\
       orders b !! Order.order_id t0 = Some t) \/
    (Order.status t = FILLED /\ Order.active t = false /\ Order.remaining_qty t = 0 /\
       orders b !! Order.order_id t0 = None);
  mp_dom : forall x, x <> Order.order_id t0 ->
    (is_Some (orders b !! x) <-> is_Some (orders b0 !! x));
  mp_makers : forall x o0, orders b0 !! x = Some o0 ->
    exists o, orders b !! x = Some o /\ static o = static o0 /\
      Order.remaining_qty o0 - Order.remaining_qty o = sum_maker x ts /\
      status_moves (Order.status o0) (Order.status o);
  mp_trades : forall j tr, ts !! j = Some tr -> trade_ok b0 t0 (take j ts) tr
}.

(** [b'] differs from [b] at most in side [s]'s levels and prices. *)
Definition frame (s : Side) (b b' : OrderBook.t) : Prop :=
  orders b' = orders b /\ symbol b' = symbol b /\
  levels (opposite s) b' = levels (opposite s) b /\ prices (opposite s) b' = prices (opposite s) b.

(** A resting price [p] of the side opposite to a taker of side [s] and
    limit [limit] that the taker's crossing test rejects: an ask above a
    bid limit, a bid below an ask limit. *)
Definition outside (s : Side) (limit p : Z) : Prop :=
  match s with BUY => limit < p | SELL => p < limit end.

(** Every eligible order has a price and is listed at it on its side. *)
Definition listed (b : OrderBook.t) : Prop :=
  forall x o, orders b !! x = Some o -> eligible o = true ->
    exists p, Order.price_cents o = Some p /\ x ∈ lvl (levels (Order.side o) b) p.

(** No eligible bid is priced at or above an eligible ask. *)
Definition uncrossed (b : OrderBook.t) : Prop :=
  forall x y ox oy px py, orders b !! x = Some ox -> orders b !! y = Some oy ->
    Order.side ox = BUY -> Order.side oy = SELL -> eligible ox = true -> eligible oy = true ->
    Order.price_cents ox = Some px -> Order.price_cents oy = Some py -> px < py.

(** ** Concrete scenarios *)

Definition env0 : Env := {| new_id_at := fun _ => "t"%string; now_ms_at := fun _ => 0 |}.

Definition lim (oid : string) (s : Side) (q p : Z) : Order.t :=
  Order.mk "u" "AAPL" s LIMIT q (Some p) None oid 0 q NEW true.

Definition run_match (o : Order.t) (b : OrderBook.t) : OrderBook.t :=
  match match_order env0 b o with Ok (b', _, _) => b' | Err _ => b end.

Definition trades_of (o : Order.t) (b : OrderBook.t) : list (option Z * Z * string) :=
  match match_order env0 b o with
  | Ok (_, _, ts) => map (fun tr => (Trade.price_cents tr, Trade.qty tr, Trade.maker_order_id tr)) ts
  | Err _ => []
  end.

(** Scenario A of the spec. *)
Definition bookA : OrderBook.t := run_match (lim "s" SELL 10 18760) (init "AAPL").

(** Two resting asks at one price, inserted [s1] first. *)
Definition bookF : OrderBook.t :=
  run_match (lim "s2" SELL 1 100) (run_match (lim "s1" SELL 1 100) (init "AAPL")).

(** An ask at 100 filled by a bid (its level is left stale), then an ask
    at 200. *)
Definition bookC1 : OrderBook.t :=
  run_match (lim "s2" SELL 1 200)
    (run_match (lim "b1" BUY 1 100) (run_match (lim "s1" SELL 1 100) (init "AAPL"))).

(** One resting bid of 3 at 100. *)
Definition bookB : OrderBook.t := run_match (lim "b" BUY 3 100) (init "AAPL").

(** Asks at 100 and 200, the one at 100 canceled. *)
Definition bookC10 : OrderBook.t :=
  fst (cancel "s1" (run_match (lim "s2" SELL 1 200) (run_match (lim "s1" SELL 1 100) (init "AAPL")))).

(** The order [s] of [bookA] once canceled. *)
Definition canceledA : Order.t :=
  Order.mk "u" "AAPL" SELL LIMIT 10 (Some 18760) None "s" 0 0 CANCELED false.

(** Evaluates the left-hand side of an equation on closed terms. *)
Ltac eval_lhs := match goal with |- ?l = _ => let v := eval vm_compute in l in change l with v end.

(** Freshness of a closed order against a closed book. *)
Ltac fresh_closed := split; eval_lhs; reflexivity.

(** * Lemmas about the sorted price arrays *)

Lemma insort_perm x l : insort x l ≡ₚ x :: l.
Proof.
  induction l as [|y l IH]; simpl; [done|].
  destruct (x <? y); [done|].
  rewrite IH. apply perm_swap.
Qed.

Lemma insort_sorted x l :
  StronglySorted Z.lt l -> x ∉ l -> StronglySorted Z.lt (insort x l).
Proof.
  induction l as [|y l IH]; simpl; intros Hs Hx.
  - repeat constructor.
  - apply StronglySorted_cons in Hs as [Hy Hs].
    destruct (x <? y) eqn:E.
    + apply Z.ltb_lt in E. apply StronglySorted_cons. split; [|by constructor].
      constructor; [done|]. eapply Forall_impl; [exact Hy|]. simpl; lia.
    + apply Z.ltb_ge in E. assert (x <> y) by (intros ->; apply Hx; left).
      apply StronglySorted_cons. split.
      * rewrite insort_perm. constructor; [lia|done].
      * apply IH; [done|]. intros Hin. apply Hx. by right.
Qed.

Lemma bisect_split l p :
  StronglySorted Z.lt l -> p ∈ l ->
  exists l1 l2, l = l1 ++ p :: l2 /\ bisect_left l p = length l1.
Proof.
  induction l as [|a l IH]; intros Hs Hp; [by apply elem_of_nil in Hp|].
  apply StronglySorted_cons in Hs as [Ha Hs].
  apply elem_of_cons in Hp as [->|Hp].
  - exists [], l. simpl. by rewrite Z.ltb_irrefl.
  - destruct (IH Hs Hp) as (l1 & l2 & -> & Hb).
    exists (a :: l1), l2. simpl. split; [done|].
    rewrite Forall_forall in Ha. specialize (Ha p ltac:(set_solver)).
    apply Z.ltb_lt in Ha. by rewrite Ha, Hb.
Qed.

(** Removing a price through [bisect_left] and [list.pop]. *)
Lemma bisect_pop l p :
  StronglySorted Z.lt l -> p ∈ l ->
  exists l1 l2, l = l1 ++ p :: l2 /\
    ((bisect_left l p <? length l)%nat && bool_decide (l !! bisect_left l p = Some p) = true) /\
    delete (bisect_left l p) l = l1 ++ l2.
Proof.
  intros Hs Hp. destruct (bisect_split l p Hs Hp) as (l1 & l2 & -> & Hb).
  exists l1, l2. rewrite Hb. split; [done|]. split.
  - apply andb_true_intro. split.
    + apply Nat.ltb_lt. rewrite length_app. simpl. lia.
    + apply bool_decide_eq_true. by rewrite list_lookup_middle.
  - apply delete_middle.
Qed.

(** * Field access lemmas *)

Lemma levels_set_levels s L b : levels s (set_levels s L b) = L.
Proof. by destruct s. Qed.
Lemma levels_set_levels_ne s s' L b : s <> s' -> levels s (set_levels s' L b) = levels s b.
Proof. by destruct s, s'. Qed.
Lemma prices_set_levels s s' L b : prices s (set_levels s' L b) = prices s b.
Proof. by destruct s, s'. Qed.
Lemma levels_set_prices s s' P b : levels s (set_prices s' P b) = levels s b.
Proof. by destruct s, s'. Qed.
Lemma prices_set_prices s P b : prices s (set_prices s P b) = P.
Proof. by destruct s. Qed.
Lemma prices_set_prices_ne s s' P b : s <> s' -> prices s (set_prices s' P b) = prices s b.
Proof. by destruct s, s'. Qed.
Lemma orders_set_levels s L b : orders (set_levels s L b) = orders b.
Proof. by destruct s. Qed.
Lemma orders_set_prices s P b : orders (set_prices s P b) = orders b.
Proof. by destruct s. Qed.
Lemma symbol_set_levels s L b : symbol (set_levels s L b) = symbol b.
Proof. by destruct s. Qed.
Lemma symbol_set_prices s P b : symbol (set_prices s P b) = symbol b.
Proof. by destruct s. Qed.
Lemma levels_set_orders s m b : levels s (set_orders m b) = levels s b.
Proof. by destruct s. Qed.
Lemma prices_set_orders s m b : prices s (set_orders m b) = prices s b.
Proof. by destruct s. Qed.

Create Rewrite HintDb book_access.
#[export] Hint Rewrite levels_set_levels prices_set_levels levels_set_prices prices_set_prices
  orders_set_levels orders_set_prices symbol_set_levels symbol_set_prices
  levels_set_orders prices_set_orders : book_access.

Lemma best_first_perm s b : best_first s b ≡ₚ prices s b.
Proof. destruct s; simpl; [symmetry; apply Permutation_rev|done]. Qed.

Lemma best_first_of s b : best_first s b = match s with BUY => rev (prices s b) | SELL => prices s b end.
Proof. by destruct s. Qed.

(** The best price heads the priority order. *)
Lemma best_best_first s b p :
  best s b = Some p -> exists rest, best_first s b = p :: rest.
Proof.
  destruct s; simpl; unfold best_bid, best_ask.
  - intros Hl. apply last_Some in Hl as [l' ->]. exists (rev l').
    by rewrite rev_app_distr.
  - intros Hh. apply head_Some in Hh as [l' ->]. by exists l'.
Qed.

Lemma best_prices s b b' : prices s b' = prices s b -> best s b' = best s b.
Proof. destruct s; simpl; unfold best_bid, best_ask; by intros ->. Qed.

Lemma sorted_NoDup l : StronglySorted Z.lt l -> NoDup l.
Proof.
  induction 1 as [|a l Hs IH Ha]; constructor; [|done].
  intros Hin. rewrite Forall_forall in Ha. specialize (Ha a Hin). lia.
Qed.

Lemma best_first_NoDup s b : StronglySorted Z.lt (prices s b) -> NoDup (best_first s b).
Proof.
  intros Hs. rewrite best_first_perm. by apply sorted_NoDup.
Qed.

Lemma map_lvl_agree (L L' : gmap Z (list string)) (ps : list Z) :
  (forall x, x ∈ ps -> L' !! x = L !! x) -> map (lvl L') ps = map (lvl L) ps.
Proof.
  induction ps as [|x ps IH]; intros H; simpl; [done|].
  unfold lvl at 1 3. rewrite H by set_solver. f_equal. apply IH. set_solver.
Qed.

Lemma concat_lvl_skip (L : gmap Z (list string)) p A B :
  lvl L p = [] -> concat (map (lvl L) (A ++ p :: B)) = concat (map (lvl L) (A ++ B)).
Proof.
  intros Hp. rewrite !map_app, !concat_app. simpl. by rewrite Hp.
Qed.

(** Replacing the best level's deque by a suffix of it removes that prefix
    from the priority order. *)
Lemma flat_set_best s b p rest q dropped q' :
  best_first s b = p :: rest -> NoDup (p :: rest) ->
  levels s b !! p = Some q -> q = dropped ++ q' ->
  flat s b = dropped ++ flat s (set_levels s (<[p := q']> (levels s b)) b).
Proof.
  intros Hbf Hnd Hq ->. apply NoDup_cons in Hnd as [Hp _].
  assert (Hbf' : best_first s (set_levels s (<[p := q']> (levels s b)) b) = p :: rest).
  { rewrite best_first_of, prices_set_levels, <- best_first_of. done. }
  unfold flat. rewrite Hbf, Hbf', levels_set_levels. simpl.
  unfold lvl at 1 3. rewrite Hq, lookup_insert_eq. simpl. rewrite <- app_assoc.
  f_equal. f_equal. f_equal. symmetry. apply map_lvl_agree.
  intros x Hx. rewrite lookup_insert_ne; [done|]. intros ->. done.
Qed.

Lemma skip_ineligible_spec os q q' r :
  skip_ineligible os q = (q', r) ->
  exists dropped, q = dropped ++ q' /\
    (forall x o, x ∈ dropped -> os !! x = Some o -> eligible o = false) /\
    match r with
    | None => q' = []
    | Some (k, o) => (exists q'', q' = k :: q'') /\ os !! k = Some o /\ eligible o = true
    end.
Proof.
  revert q' r. induction q as [|x q IH]; intros q' r; simpl.
  - intros [= <- <-]. exists []. split; [done|]. split; [set_solver|done].
  - destruct (os !! x) as [o|] eqn:Hx; [destruct (eligible o) eqn:He|].
    + intros [= <- <-]. exists []. split; [done|]. split; [set_solver|].
      split; [by eexists|done].
    + intros Hs. destruct (IH _ _ Hs) as (d & -> & Hd & Hr).
      exists (x :: d). split; [done|]. split; [|done].
      intros y o' Hy Ho'. apply elem_of_cons in Hy as [->|Hy]; [congruence|eauto].
    + intros Hs. destruct (IH _ _ Hs) as (d & -> & Hd & Hr).
      exists (x :: d). split; [done|]. split; [|done].
      intros y o' Hy Ho'. apply elem_of_cons in Hy as [->|Hy]; [congruence|eauto].
Qed.

(** [_cleanup_level_if_empty] on an emptied level of a sorted side drops
    the price from the array and the level from the dict. *)
Lemma cleanup_spec s p b :
  StronglySorted Z.lt (prices s b) -> p ∈ prices s b -> levels s b !! p = Some [] ->
  exists l1 l2, prices s b = l1 ++ p :: l2 /\
    cleanup_level_if_empty s p b = set_prices s (l1 ++ l2) (set_levels s (delete p (levels s b)) b).
Proof.
  intros Hs Hp Hl. unfold cleanup_level_if_empty. rewrite Hl. simpl.
  rewrite prices_set_levels.
  destruct (bisect_pop _ _ Hs Hp) as (l1 & l2 & Heq & Hc & Hd).
  exists l1, l2. split; [done|]. rewrite Hc, Hd. done.
Qed.

Lemma flat_cleanup s p b l1 l2 :
  prices s b = l1 ++ p :: l2 -> levels s b !! p = Some [] ->
  flat s (set_prices s (l1 ++ l2) (set_levels s (delete p (levels s b)) b)) = flat s b.
Proof.
  intros Hps Hl. unfold flat. rewrite levels_set_prices, levels_set_levels.
  rewrite !best_first_of, prices_set_prices, Hps.
  assert (Hlp : lvl (levels s b) p = []) by (unfold lvl; by rewrite Hl).
  assert (Hag : forall x, lvl (delete p (levels s b)) x = lvl (levels s b) x).
  { intros x. unfold lvl. destruct (decide (x = p)) as [->|Hne].
    - rewrite lookup_delete_eq, Hl. done.
    - by rewrite lookup_delete_ne by congruence. }
  assert (Hmap : forall ps, map (lvl (delete p (levels s b))) ps = map (lvl (levels s b)) ps).
  { intros ps. apply map_ext. apply Hag. }
  destruct s; rewrite Hmap.
  - rewrite !rev_app_distr. simpl. rewrite <- app_assoc. simpl.
    symmetry. apply (concat_lvl_skip _ p (rev l2) (rev l1)). done.
  - symmetry. by apply concat_lvl_skip.
Qed.

Lemma set_levels_set_levels s L L' b : set_levels s L (set_levels s L' b) = set_levels s L b.
Proof. by destruct s. Qed.

Lemma opposite_ne s : opposite s <> s.
Proof. by destruct s. Qed.

Lemma frame_refl s b : frame s b b.
Proof. done. Qed.

Lemma frame_trans s b1 b2 b3 : frame s b1 b2 -> frame s b2 b3 -> frame s b1 b3.
Proof. intros (?&?&?&?) (?&?&?&?). repeat split; congruence. Qed.

Lemma frame_set_levels s L b : frame s b (set_levels s L b).
Proof.
  repeat split; rewrite ?orders_set_levels, ?symbol_set_levels, ?prices_set_levels; try done.
  apply levels_set_levels_ne, opposite_ne.
Qed.

Lemma frame_set_prices s P b : frame s b (set_prices s P b).
Proof.
  repeat split; rewrite ?orders_set_prices, ?symbol_set_prices, ?levels_set_prices; try done.
  apply prices_set_prices_ne, opposite_ne.
Qed.

Lemma side_inv_ext s b b' :
  levels s b' = levels s b -> prices s b' = prices s b -> orders b' = orders b ->
  side_inv s b -> side_inv s b'.
Proof.
  intros Hl Hp Ho [H1 H2 H3 H4 H5]. constructor; rewrite ?Hl, ?Hp, ?Ho; done.
Qed.

Lemma other_side s s' : s' <> s -> s' = opposite s.
Proof. destruct s, s'; done. Qed.

Lemma book_inv_frame s b b' :
  book_inv b -> frame s b b' -> side_inv s b' -> book_inv b'.
Proof.
  intros [Ho Hs] (Hor & Hsy & Hl & Hp) Hs'. constructor.
  - rewrite Hor, Hsy. done.
  - intros s0. destruct (decide (s0 = s)) as [->|Hne]; [done|].
    apply other_side in Hne as ->. eapply side_inv_ext; [done..|apply Hs].
Qed.

(** Replacing a level's deque by a nonempty suffix of it. *)
Lemma side_inv_set_level s b p q d q' :
  side_inv s b -> levels s b !! p = Some q -> q = d ++ q' -> q' <> [] ->
  side_inv s (set_levels s (<[p := q']> (levels s b)) b).
Proof.
  intros [Hso Hdo Hne Hnd Href] Hq -> Hq'.
  constructor; rewrite ?levels_set_levels, ?prices_set_levels, ?orders_set_levels; try done.
  - intros x. rewrite Hdo. rewrite lookup_insert.
    case_decide as E; [subst; rewrite Hq; split; intros; by eexists|done].
  - intros x qx. rewrite lookup_insert. case_decide; [intros [= <-]; done|apply Hne].
  - intros x qx. rewrite lookup_insert. case_decide as E.
    + intros [= <-]. apply Hnd in Hq. apply NoDup_app in Hq. tauto.
    + apply Hnd.
  - intros x qx oid. rewrite lookup_insert. case_decide as E.
    + intros [= <-] Hin. subst. eapply Href; [exact Hq|]. set_solver.
    + apply Href.
Qed.

(** Dropping a level and its price. *)
Lemma side_inv_remove_level s b p q l1 l2 :
  side_inv s b -> prices s b = l1 ++ p :: l2 -> levels s b !! p = Some q ->
  side_inv s (set_prices s (l1 ++ l2) (set_levels s (delete p (levels s b)) b)).
Proof.
  intros [Hso Hdo Hne Hnd Href] Hps Hq.
  assert (Hndp : NoDup (l1 ++ p :: l2)) by (rewrite <- Hps; by apply sorted_NoDup).
  constructor; rewrite ?levels_set_prices, ?levels_set_levels, ?prices_set_prices,
    ?orders_set_prices, ?orders_set_levels.
  - rewrite Hps in Hso. apply StronglySorted_app in Hso as (H1 & H2 & H3).
    apply StronglySorted_cons in H3 as [_ H3].
    apply StronglySorted_app. split; [|done]. intros x1 x2 ? ?. apply H1; set_solver.
  - intros x. rewrite lookup_delete. case_decide as E.
    + subst x. split; [|intros [? Hx]; done].
      intros Hin. apply NoDup_app in Hndp as (_ & Hdis & Hnd2).
      apply NoDup_cons in Hnd2 as [Hn2 _].
      apply elem_of_app in Hin as [Hin|Hin]; [|done]. exfalso; apply (Hdis p Hin); left.
    + rewrite <- Hdo, Hps. rewrite !elem_of_app, elem_of_cons. naive_solver.
  - intros x qx. rewrite lookup_delete. case_decide; [done|apply Hne].
  - intros x qx. rewrite lookup_delete. case_decide; [done|apply Hnd].
  - intros x qx oid. rewrite lookup_delete. case_decide; [done|apply Href].
Qed.

(** [_pop_next_active_at_price] at the best price of a side. *)
Lemma pop_best_spec s b p b' r :
  book_inv b -> best s b = Some p ->
  pop_next_active_at_price s p b = (b', r) ->
  book_inv b' /\ frame s b b' /\
  (exists dropped, flat s b = dropped ++ flat s b' /\
     forall x o, x ∈ dropped -> orders b !! x = Some o -> eligible o = false) /\
  match r with
  | Some (k, o) => orders b !! k = Some o /\ eligible o = true /\ best s b' = Some p /\
                   exists q, levels s b' !! p = Some (k :: q)
  | None => (length (prices s b') < length (prices s b))%nat
  end.
Proof.
  intros Hinv Hbest Hpop.
  pose proof (bi_side _ Hinv s) as Hsi.
  destruct (best_best_first _ _ _ Hbest) as [rest Hbf].
  assert (Hpin : p ∈ prices s b) by (rewrite <- best_first_perm, Hbf; left).
  destruct (proj1 (si_dom _ _ Hsi p) Hpin) as [q Hq].
  pose proof (si_nonempty _ _ Hsi p q Hq) as Hne.
  assert (Hnd : NoDup (p :: rest)) by (rewrite <- Hbf; apply best_first_NoDup, Hsi).
  unfold pop_next_active_at_price in Hpop. rewrite Hq in Hpop.
  destruct q as [|x q0]; [done|].
  destruct (skip_ineligible (orders b) (x :: q0)) as [q' r'] eqn:Hsk.
  destruct (skip_ineligible_spec _ _ _ _ Hsk) as (d & Hdq & Hd & Hr).
  pose proof (flat_set_best s b p rest _ d q' Hbf Hnd Hq Hdq) as Hflat1.
  destruct r' as [[k o]|].
  - simpl in Hpop. injection Hpop as <- <-.
    destruct Hr as ([q'' ->] & Hk & Hel).
    split; [|split; [apply frame_set_levels|split]].
    + eapply book_inv_frame; [done|apply frame_set_levels|].
      eapply side_inv_set_level; [done|exact Hq|exact Hdq|done].
    + exists d. split; done.
    + split; [done|]. split; [done|]. split.
      * rewrite (best_prices _ b); [done|]. apply prices_set_levels.
      * exists q''. rewrite levels_set_levels. apply lookup_insert_eq.
  - simpl in Hpop. injection Hpop as <- <-. subst q'.
    set (b1 := set_levels s (<[p := []]> (levels s b)) b).
    assert (Hl1 : levels s b1 !! p = Some []) by (unfold b1; by rewrite levels_set_levels, lookup_insert_eq).
    assert (Hp1 : prices s b1 = prices s b) by apply prices_set_levels.
    destruct (cleanup_spec s p b1) as (l1 & l2 & Hps & Hcl).
    { rewrite Hp1. apply Hsi. } { by rewrite Hp1. } { done. }
    rewrite Hcl.
    assert (Hb' : set_prices s (l1 ++ l2) (set_levels s (delete p (levels s b1)) b1)
                  = set_prices s (l1 ++ l2) (set_levels s (delete p (levels s b)) b)).
    { unfold b1. rewrite levels_set_levels, set_levels_set_levels, delete_insert_eq. done. }
    rewrite Hp1 in Hps.
    split; [|split; [|split]].
    + rewrite Hb'. eapply book_inv_frame; [done| |].
      * eapply frame_trans; [apply frame_set_levels|apply frame_set_prices].
      * eapply side_inv_remove_level; [done|exact Hps|exact Hq].
    + rewrite Hb'. eapply frame_trans; [apply frame_set_levels|apply frame_set_prices].
    + exists d. split; [|done]. rewrite Hflat1. f_equal. symmetry.
      apply flat_cleanup; [unfold b1; rewrite prices_set_levels; exact Hps|exact Hl1].
    + rewrite prices_set_prices, Hps, !length_app. simpl. lia.
Qed.

Lemma best_None s b : best s b = None -> prices s b = [].
Proof.
  destruct s; simpl; unfold best_bid, best_ask.
  - destruct (bid_prices b) as [|x l] eqn:E using rev_ind; [done|].
    rewrite last_snoc. done.
  - destruct (ask_prices b); done.
Qed.

Lemma flat_nil_prices s b : prices s b = [] -> flat s b = [].
Proof. unfold flat. rewrite best_first_of. destruct s; intros ->; done. Qed.

Lemma flat_head s b p k q :
  best s b = Some p -> levels s b !! p = Some (k :: q) -> exists rest, flat s b = k :: rest.
Proof.
  intros Hb Hl. destruct (best_best_first _ _ _ Hb) as [rest Hbf].
  unfold flat. rewrite Hbf. simpl. unfold lvl at 1. rewrite Hl. simpl. by eexists.
Qed.

(** [get_best_resting] (with enough fuel) on a book satisfying the
    invariants: it terminates, keeps the invariants, changes only the
    requested side's levels and prices, drops only a prefix of ineligible
    entries of the priority order, and returns the head of what is left. *)
Lemma get_best_resting_go_spec fuel s b :
  book_inv b -> (length (prices s b) < fuel)%nat ->
  exists b' r, get_best_resting_go fuel s b = Ok (b', r) /\ book_inv b' /\ frame s b b' /\
  (exists dropped, flat s b = dropped ++ flat s b' /\
     forall x o, x ∈ dropped -> orders b !! x = Some o -> eligible o = false) /\
  match r with
  | Some (k, o) => orders b !! k = Some o /\ eligible o = true /\
                   exists p q, best s b' = Some p /\ levels s b' !! p = Some (k :: q)
  | None => prices s b' = [] /\ flat s b' = []
  end.
Proof.
  revert b. induction fuel as [|fuel IH]; intros b Hinv Hlen; [lia|].
  simpl. destruct (best s b) as [p|] eqn:Hb.
  - destruct (pop_next_active_at_price s p b) as [b1 r1] eqn:Hpop.
    destruct (pop_best_spec _ _ _ _ _ Hinv Hb Hpop) as (Hinv1 & Hfr1 & (d1 & Hf1 & Hd1) & Hr1).
    destruct r1 as [[k o]|].
    + exists b1, (Some (k, o)). split; [done|]. split; [done|]. split; [done|].
      split; [by exists d1|]. destruct Hr1 as (Hk & He & Hb1 & q & Hq). eauto 10.
    + destruct (IH b1 Hinv1 ltac:(lia)) as (b' & r & Hgo & Hinv' & Hfr' & (d2 & Hf2 & Hd2) & Hr).
      exists b', r. split; [done|]. split; [done|]. split; [by eapply frame_trans|].
      destruct Hfr1 as (Ho1 & _).
      split.
      * exists (d1 ++ d2). split; [by rewrite Hf1, Hf2, app_assoc|].
        intros x o Hx Ho. apply elem_of_app in Hx as [Hx|Hx]; [eauto|].
        apply (Hd2 x o Hx). by rewrite Ho1.
      * destruct r as [[k o]|]; [|done]. rewrite <- Ho1. done.
  - exists b, None. split; [done|]. split; [done|]. split; [apply frame_refl|].
    apply best_None in Hb. split.
    + exists []. split; [done|]. intros x o Hx. by apply elem_of_nil in Hx.
    + split; [done|]. by apply flat_nil_prices.
Qed.

Lemma get_best_resting_spec s b :
  book_inv b ->
  exists b' r, get_best_resting s b = Ok (b', r) /\ book_inv b' /\ frame s b b' /\
  (exists dropped, flat s b = dropped ++ flat s b' /\
     forall x o, x ∈ dropped -> orders b !! x = Some o -> eligible o = false) /\
  match r with
  | Some (k, o) => orders b !! k = Some o /\ eligible o = true /\
                   exists p q, best s b' = Some p /\ levels s b' !! p = Some (k :: q)
  | None => prices s b' = [] /\ flat s b' = []
  end.
Proof. intros Hinv. unfold get_best_resting. apply get_best_resting_go_spec; [done|lia]. Qed.

Lemma set_levels_id s b : set_levels s (levels s b) b = b.
Proof. by destruct s, b. Qed.

(** An eligible order at the head of the best level is returned at once,
    and the book is left as it is. *)
Lemma get_best_resting_head s b p k q o :
  best s b = Some p -> levels s b !! p = Some (k :: q) ->
  orders b !! k = Some o -> eligible o = true ->
  get_best_resting s b = Ok (b, Some (k, o)).
Proof.
  intros Hb Hl Hk He. unfold get_best_resting. simpl. rewrite Hb.
  unfold pop_next_active_at_price. rewrite Hl. simpl. rewrite Hk, He. simpl.
  rewrite insert_id by done. by rewrite set_levels_id.
Qed.

(** * The priority order of a side *)

Lemma elem_of_concat_map {A B} (f : A -> list B) (ps : list A) (x : B) :
  x ∈ concat (map f ps) <-> exists p, p ∈ ps /\ x ∈ f p.
Proof.
  induction ps as [|p ps IH]; simpl.
  - split; [intros Hx; by apply elem_of_nil in Hx|intros (? & Hp & _); by apply elem_of_nil in Hp].
  - rewrite elem_of_app, IH. split.
    + intros [Hx|(p' & Hp' & Hx)]; [exists p; split; [left|done]|exists p'; split; [by right|done]].
    + intros (p' & Hp' & Hx). apply elem_of_cons in Hp' as [->|Hp']; [by left|right; eauto].
Qed.

Lemma NoDup_concat_map {A B} (f : A -> list B) (ps : list A) :
  NoDup ps -> (forall p, NoDup (f p)) ->
  (forall p1 p2 x, x ∈ f p1 -> x ∈ f p2 -> p1 = p2) ->
  NoDup (concat (map f ps)).
Proof.
  induction ps as [|p ps IH]; intros Hnd Hf Hdis; simpl; [constructor|].
  apply NoDup_cons in Hnd as [Hp Hnd].
  apply NoDup_app. split; [done|]. split; [|by apply IH].
  intros x Hx Hx'. apply elem_of_concat_map in Hx' as (p' & Hp' & Hx').
  assert (p = p') as <- by eauto. done.
Qed.

Lemma elem_of_flat s b x :
  side_inv s b -> x ∈ flat s b <-> exists p q, levels s b !! p = Some q /\ x ∈ q.
Proof.
  intros Hsi. unfold flat. rewrite elem_of_concat_map. split.
  - intros (p & Hp & Hx). unfold lvl in Hx. destruct (levels s b !! p) as [q|] eqn:E.
    + eauto.
    + by apply elem_of_nil in Hx.
  - intros (p & q & Hq & Hx). exists p. split.
    + rewrite best_first_perm. apply (si_dom _ _ Hsi). by eexists.
    + unfold lvl. by rewrite Hq.
Qed.

Lemma flat_NoDup s b : side_inv s b -> NoDup (flat s b).
Proof.
  intros Hsi. unfold flat. apply NoDup_concat_map.
  - apply best_first_NoDup, Hsi.
  - intros p. unfold lvl. destruct (levels s b !! p) eqn:E; [by eapply si_nodup|constructor].
  - intros p1 p2 x. unfold lvl.
    destruct (levels s b !! p1) as [q1|] eqn:E1; [|intros Hx; by apply elem_of_nil in Hx].
    destruct (levels s b !! p2) as [q2|] eqn:E2; [|intros _ Hx; by apply elem_of_nil in Hx].
    intros H1 H2.
    destruct (si_ref _ _ Hsi _ _ _ E1 H1) as (o1 & Ho1 & _ & Hp1).
    destruct (si_ref _ _ Hsi _ _ _ E2 H2) as (o2 & Ho2 & _ & Hp2).
    congruence.
Qed.

Lemma ahead_split F1 F2 x m : x ∈ F1 -> m ∈ F2 -> ahead (F1 ++ F2) x m.
Proof.
  intros Hx Hm. apply list_elem_of_lookup in Hx as [i Hi].
  apply list_elem_of_lookup in Hm as [j Hj].
  exists i, (length F1 + j)%nat. split; [by apply lookup_app_l_Some|].
  split; [rewrite lookup_app_r by lia; by rewrite Nat.add_comm, Nat.add_sub|].
  apply lookup_lt_Some in Hi. lia.
Qed.

Lemma ahead_queue F1 q F2 i1 i2 x m :
  q !! i1 = Some x -> q !! i2 = Some m -> (i1 < i2)%nat -> ahead (F1 ++ q ++ F2) x m.
Proof.
  intros H1 H2 Hlt. exists (length F1 + i1)%nat, (length F1 + i2)%nat.
  split; [|split; [|lia]].
  - rewrite lookup_app_r by lia. rewrite Nat.add_comm, Nat.add_sub. by apply lookup_app_l_Some.
  - rewrite lookup_app_r by lia. rewrite Nat.add_comm, Nat.add_sub. by apply lookup_app_l_Some.
Qed.

(** In a duplicate-free list, everything ahead of the head of a suffix lies
    in the prefix before it. *)
Lemma ahead_prefix F P R x m : NoDup F -> F = P ++ m :: R -> ahead F x m -> x ∈ P.
Proof.
  intros Hnd -> (i & j & Hi & Hj & Hlt).
  assert (Hm : (P ++ m :: R) !! length P = Some m) by (by rewrite list_lookup_middle).
  pose proof (NoDup_lookup _ _ _ _ Hnd Hj Hm) as ->.
  rewrite lookup_app_l in Hi by lia. apply list_elem_of_lookup. eauto.
Qed.

Lemma sorted_split l p1 p2 :
  StronglySorted Z.lt l -> p1 ∈ l -> p2 ∈ l -> p1 < p2 ->
  exists A B, l = A ++ p1 :: B /\ p2 ∈ B.
Proof.
  intros Hs H1 H2 Hlt. apply list_elem_of_split in H1 as (A & B & ->).
  exists A, B. split; [done|].
  apply elem_of_app in H2 as [H2|H2].
  - exfalso. apply StronglySorted_app in Hs as (Hab & _).
    specialize (Hab p2 p1 H2 ltac:(left)). lia.
  - apply elem_of_cons in H2 as [->|H2]; [lia|done].
Qed.

Lemma ahead_better s b p1 p2 q1 q2 x m :
  side_inv s b -> levels s b !! p1 = Some q1 -> levels s b !! p2 = Some q2 ->
  x ∈ q1 -> m ∈ q2 -> better s p1 p2 -> ahead (flat s b) x m.
Proof.
  intros Hsi Hq1 Hq2 Hx Hm Hbt.
  assert (Hp1 : p1 ∈ prices s b) by (apply (si_dom _ _ Hsi); by eexists).
  assert (Hp2 : p2 ∈ prices s b) by (apply (si_dom _ _ Hsi); by eexists).
  pose proof (si_sorted _ _ Hsi) as Hso.
  assert (exists A B, best_first s b = A ++ p1 :: B /\ p2 ∈ B) as (A & B & Hbf & HB).
  { rewrite best_first_of. destruct s; simpl in Hbt.
    - destruct (sorted_split _ p2 p1 Hso Hp2 Hp1 ltac:(lia)) as (A & B & Hl & HB).
      apply list_elem_of_split in HB as (B1 & B2 & ->).
      exists (rev B2), (rev B1 ++ p2 :: rev A). rewrite Hl.
      rewrite !rev_app_distr. simpl. rewrite rev_app_distr. simpl.
      rewrite <- !app_assoc. simpl. split; [done|].
      apply elem_of_app. right. left.
    - by apply sorted_split. }
  unfold flat. rewrite Hbf, map_app, concat_app. simpl. rewrite app_assoc.
  apply ahead_split.
  - apply elem_of_app. right. unfold lvl. by rewrite Hq1.
  - apply elem_of_concat_map. exists p2. split; [done|]. unfold lvl. by rewrite Hq2.
Qed.

Lemma ahead_same_level s b p q i1 i2 x m :
  side_inv s b -> levels s b !! p = Some q ->
  q !! i1 = Some x -> q !! i2 = Some m -> (i1 < i2)%nat -> ahead (flat s b) x m.
Proof.
  intros Hsi Hq H1 H2 Hlt.
  assert (Hp : p ∈ best_first s b) by (rewrite best_first_perm; apply (si_dom _ _ Hsi); by eexists).
  apply list_elem_of_split in Hp as (A & B & Hbf).
  unfold flat. rewrite Hbf, map_app, concat_app. simpl.
  unfold lvl at 2. rewrite Hq. simpl. by eapply ahead_queue.
Qed.

(** * Sums of trade quantities, statuses, order updates *)

Lemma sum_qty_app ts1 ts2 : sum_qty (ts1 ++ ts2) = sum_qty ts1 + sum_qty ts2.
Proof. induction ts1 as [|tr ts1 IH]; simpl; [done|]. rewrite IH. lia. Qed.

Lemma sum_qty_snoc ts tr : sum_qty (ts ++ [tr]) = sum_qty ts + Trade.qty tr.
Proof. rewrite sum_qty_app. simpl. lia. Qed.

Lemma sum_maker_snoc x ts tr :
  sum_maker x (ts ++ [tr]) =
  sum_maker x ts + (if decide (Trade.maker_order_id tr = x) then Trade.qty tr else 0).
Proof.
  unfold sum_maker. rewrite filter_app, sum_qty_app. f_equal.
  rewrite filter_cons, filter_nil. case_decide; simpl; lia.
Qed.

Lemma sum_maker_nil x : sum_maker x [] = 0.
Proof. done. Qed.

Lemma status_moves_refl s : status_moves s s.
Proof. by left. Qed.

Lemma status_moves_trans a b c :
  a <> NEW -> status_moves a b -> status_moves b c -> status_moves a c.
Proof.
  unfold status_moves. intros Ha [<-|Hab] [<-|Hbc]; auto.
  right. destruct a, b, c; simpl in *; congruence.
Qed.

Lemma status_moves_terminal s s' : terminal s = true -> status_moves s s' -> s' = s.
Proof. unfold status_moves. destruct s, s'; simpl; intuition congruence. Qed.

Lemma static_with_remaining_qty o r : static (Order.with_remaining_qty o r) = static o.
Proof. done. Qed.
Lemma static_with_status o s : static (Order.with_status o s) = static o.
Proof. done. Qed.
Lemma static_with_active o a : static (Order.with_active o a) = static o.
Proof. done. Qed.
Lemma static_update_status o : static (update_status o) = static o.
Proof. unfold update_status. by destruct (_ =? 0). Qed.
Lemma remaining_update_status o : Order.remaining_qty (update_status o) = Order.remaining_qty o.
Proof. unfold update_status. by destruct (_ =? 0). Qed.

Lemma static_side o o' : static o = static o' -> Order.side o = Order.side o'.
Proof. unfold static. intros H. by injection H. Qed.
Lemma static_price o o' : static o = static o' -> Order.price_cents o = Order.price_cents o'.
Proof. unfold static. intros H. by injection H. Qed.
Lemma static_id o o' : static o = static o' -> Order.order_id o = Order.order_id o'.
Proof. unfold static. intros H. by injection H. Qed.
Lemma static_symbol o o' : static o = static o' -> Order.symbol o = Order.symbol o'.
Proof. unfold static. intros H. by injection H. Qed.
Lemma static_type o o' : static o = static o' -> Order.type o = Order.type o'.
Proof. unfold static. intros H. by injection H. Qed.
Lemma static_qty o o' : static o = static o' -> Order.qty o = Order.qty o'.
Proof. unfold static. intros H. by injection H. Qed.

Lemma order_ok_ineligible sym k o :
  order_ok sym k o -> eligible o = false -> Order.remaining_qty o = 0.
Proof.
  unfold order_ok, eligible. intros (_ & _ & _ & _ & Hb & Hst) He.
  apply andb_false_iff in He as [He|He].
  - destruct Hst as [(_ & Ha & _)|(_ & _ & Hr)]; [congruence|done].
  - apply bool_decide_eq_false in He. lia.
Qed.

Lemma order_ok_eligible sym k o :
  order_ok sym k o -> eligible o = true ->
  (Order.status o = RESTING \/ Order.status o = PARTIAL) /\ Order.active o = true /\
  0 < Order.remaining_qty o.
Proof.
  unfold order_ok, eligible. intros (_ & _ & _ & _ & Hb & Hst) He.
  apply andb_true_iff in He as [Ha Hr]. apply bool_decide_eq_true in Hr.
  destruct Hst as [H|(_ & Ha' & _)]; [done|congruence].
Qed.

(** The maker's update in one pass of the loop keeps it a valid book entry. *)
Lemma order_ok_fill sym k m q :
  order_ok sym k m -> eligible m = true -> 0 < q <= Order.remaining_qty m ->
  order_ok sym k (update_status (Order.with_remaining_qty m (Order.remaining_qty m - q))).
Proof.
  intros Hok He Hq. pose proof (order_ok_eligible _ _ _ Hok He) as (Hst & Ha & Hr).
  destruct Hok as (Hid & Hsy & Hty & Hpr & Hb & _).
  unfold update_status. simpl. destruct (Order.remaining_qty m - q =? 0) eqn:E.
  - apply Z.eqb_eq in E. unfold order_ok; simpl. repeat split; try done; try lia.
    right. split; [by left|]. split; [done|lia].
  - apply Z.eqb_neq in E. unfold order_ok; simpl. repeat split; try done; try lia.
    left. split; [by right|]. split; [done|lia].
Qed.

(** Replacing or adding an order that keeps the side and price of any entry
    it overwrites keeps a side's invariant. *)
Lemma side_inv_set_order s b k o' :
  side_inv s b ->
  (forall m, orders b !! k = Some m -> Order.side o' = Order.side m /\ Order.price_cents o' = Order.price_cents m) ->
  side_inv s (set_orders (<[k := o']> (orders b)) b).
Proof.
  intros [Hso Hdo Hne Hnd Href] Hk.
  constructor; rewrite ?levels_set_orders, ?prices_set_orders; try done.
  intros p q x Hq Hx. destruct (Href p q x Hq Hx) as (o & Ho & Hs & Hp). simpl.
  rewrite lookup_insert. case_decide as E.
  - subst x. destruct (Hk o Ho) as [Hs' Hp']. exists o'. split; [done|]. split; congruence.
  - eauto.
Qed.

(** * The matching loop *)

Lemma opposite_involutive s : opposite (opposite s) = s.
Proof. by destruct s. Qed.

Lemma flat_set_orders s m b : flat s (set_orders m b) = flat s b.
Proof. by destruct s. Qed.

Lemma best_set_orders s m b : best s (set_orders m b) = best s b.
Proof. by destruct s. Qed.

(** A pass whose lookup only cleaned the opposite side keeps the invariant. *)
Lemma loop_inv_lookup b0 t0 b t ts b' :
  loop_inv b0 t0 b t ts -> book_inv b' -> frame (opposite (Order.side t0)) b b' ->
  (exists d, flat (opposite (Order.side t0)) b = d ++ flat (opposite (Order.side t0)) b' /\
     forall x o, x ∈ d -> orders b !! x = Some o -> eligible o = false) ->
  loop_inv b0 t0 b' t ts.
Proof.
  intros Hli Hinv' (Ho & Hs & Hl & Hp) (d & Hfd & Hd).
  rewrite opposite_involutive in Hl, Hp.
  destruct Hli as [Hinv0 Hinv Hsym Hown Hownp Hdom Hout Hnew Hst Hrem Htst Hmk Hfl Htr].
  constructor; rewrite ?Ho, ?Hs, ?Hl, ?Hp; try done.
  destruct Hfl as (pre & Hpre & Hpr).
  exists (pre ++ d). split; [by rewrite Hpre, Hfd, app_assoc|].
  intros x o Hx Hxo. apply elem_of_app in Hx as [Hx|Hx]; [eauto|].
  eapply order_ok_ineligible; [eapply (bi_orders _ Hinv); exact Hxo|eauto].
Qed.

(** A pass that fills against the maker [m] found under key [k]. *)
Lemma loop_inv_fill env b0 t0 b t ts b1 k m :
  loop_inv b0 t0 b t ts -> 0 < Order.remaining_qty t ->
  book_inv b1 -> frame (opposite (Order.side t0)) b b1 ->
  (exists d, flat (opposite (Order.side t0)) b = d ++ flat (opposite (Order.side t0)) b1 /\
     forall x o, x ∈ d -> orders b !! x = Some o -> eligible o = false) ->
  orders b !! k = Some m -> eligible m = true ->
  (exists p q, best (opposite (Order.side t0)) b1 = Some p /\
               levels (opposite (Order.side t0)) b1 !! p = Some (k :: q)) ->
  let q := Z.min (Order.remaining_qty t) (Order.remaining_qty m) in
  let taker1 := Order.with_remaining_qty t (Order.remaining_qty t - q) in
  let maker1 := Order.with_remaining_qty m (Order.remaining_qty m - q) in
  let tr := Trade.mk (new_id_at env (length ts)) (symbol b1) (Order.price_cents m) q
              (Order.order_id maker1) (Order.order_id taker1) (now_ms_at env (length ts)) in
  loop_inv b0 t0 (set_orders (<[k := update_status maker1]> (orders b1)) b1)
    (update_status taker1) (ts ++ [tr]) /\
  Order.remaining_qty (update_status taker1) < Order.remaining_qty t.
Proof.
  intros Hli Hpos Hinv1 (Ho1 & Hs1 & Hl1 & Hp1) (d & Hfd & Hd) Hk Hm (p & qq & Hbest & Hlev)
    q taker1 maker1 tr.
  rewrite opposite_involutive in Hl1, Hp1.
  set (ms := opposite (Order.side t0)) in *.
  destruct Hli as [Hinv0 Hinv Hsym Hown Hownp Hdom Hout Hnew Hst Hrem Htst Hmk Hfl Htr].
  pose proof (bi_orders _ Hinv k m Hk) as Hokm.
  pose proof (order_ok_eligible _ _ _ Hokm Hm) as (Hstm & Ham & Hrm).
  assert (Hidm : Order.order_id m = k) by apply Hokm.
  assert (Hidt : Order.order_id t = Order.order_id t0) by (by apply static_id).
  assert (Hq : 0 < q <= Order.remaining_qty m /\ q <= Order.remaining_qty t) by (unfold q; lia).
  destruct (proj1 (Hdom k) ltac:(by eexists)) as [o0k Ho0k].
  destruct (Hmk k o0k Ho0k) as (m' & Hm' & Hstk & Hremk & Hmovk).
  rewrite Hk in Hm'. injection Hm' as <-.
  assert (Hkt : k <> Order.order_id t0) by (intros ->; congruence).
  assert (Htrm : Trade.maker_order_id tr = k) by (simpl; done).
  (* entries dropped so far all have nothing left, and are not [k] *)
  destruct Hfl as (pre & Hpre & Hpr).
  assert (Hdropped : forall x o, x ∈ pre ++ d -> orders b !! x = Some o ->
                       Order.remaining_qty o = 0 /\ x <> k).
  { intros x o Hx Hxo. assert (Order.remaining_qty o = 0).
    { apply elem_of_app in Hx as [Hx|Hx]; [eauto|].
      eapply order_ok_ineligible; [eapply (bi_orders _ Hinv); exact Hxo|eauto]. }
    split; [done|]. intros ->. rewrite Hk in Hxo. injection Hxo as <-. lia. }
  destruct (flat_head _ _ _ _ _ Hbest Hlev) as [rest Hrest].
  split; [|unfold taker1; rewrite remaining_update_status; simpl; lia].
  unfold ms in *. constructor; simpl.
  - done.
  - constructor.
    + intros x o. simpl. rewrite lookup_insert. case_decide as E.
      * intros [= <-]. subst x. rewrite Hs1. unfold maker1. apply order_ok_fill; [exact Hokm|exact Hm|lia].
      * rewrite Ho1. intros Hx. rewrite Hs1. by apply (bi_orders _ Hinv).
    + intros s. apply side_inv_set_order; [apply (bi_side _ Hinv1)|].
      intros m' Hm'. rewrite Ho1, Hk in Hm'. injection Hm' as <-.
      unfold update_status. by destruct (_ =? 0).
  - congruence.
  - rewrite levels_set_orders. congruence.
  - rewrite prices_set_orders. congruence.
  - intros x. rewrite lookup_insert. case_decide as E; [subst x|by rewrite Ho1].
    split; intros _; [by eexists|by eexists].
  - done.
  - done.
  - rewrite static_update_status. unfold taker1. rewrite static_with_remaining_qty. done.
  - rewrite remaining_update_status, sum_qty_snoc. simpl. lia.
  - right. unfold update_status. simpl.
    destruct (Order.remaining_qty t - q =? 0) eqn:E.
    + right. apply Z.eqb_eq in E. done.
    + left. apply Z.eqb_neq in E. simpl. split; [done|]. split; [|lia].
      destruct Htst as [[-> _]|[(_ & Ha & _)|(_ & _ & Hr)]]; [apply Hnew|done|lia].
  - intros x o0 Hx0. destruct (Hmk x o0 Hx0) as (o & Ho & Hso & Hro & Hmo).
    rewrite lookup_insert. case_decide as E.
    + subst x. rewrite Hk in Ho. injection Ho as <-.
      eexists. split; [done|]. split.
      { rewrite static_update_status. unfold maker1. by rewrite static_with_remaining_qty. }
      split.
      { rewrite remaining_update_status, sum_maker_snoc, Htrm. simpl.
        rewrite decide_True by done. lia. }
      apply (status_moves_trans _ (Order.status m)); [| exact Hmo |].
      { pose proof (bi_orders _ Hinv0 k o0 Hx0) as (_ & _ & _ & _ & _ & [[[H|H] _]|[[H|H] _]]);
          rewrite H; done. }
      unfold update_status, status_moves. simpl. destruct (_ =? 0); simpl;
        destruct Hstm as [-> | ->]; auto.
    + rewrite Ho1. eexists. split; [exact Ho|]. split; [done|]. split; [|done].
      rewrite sum_maker_snoc, Htrm, decide_False by congruence. lia.
  - exists (pre ++ d). rewrite flat_set_orders. split; [by rewrite Hpre, Hfd, app_assoc|].
    intros x o Hx. rewrite lookup_insert. case_decide as E.
    + subst x. destruct (Hdropped k m Hx Hk) as [_ []]. done.
    + rewrite Ho1. intros Hxo. by destruct (Hdropped x o Hx Hxo).
  - intros j tr' Hj. apply lookup_app_Some in Hj as [Hj|[Hlen Hj]].
    + rewrite take_app_le by (apply lookup_lt_Some in Hj; lia). by apply Htr.
    + apply list_lookup_singleton_Some in Hj as [Hj0 <-].
      assert (j = length ts) as -> by lia. rewrite take_app_length.
      unfold trade_ok. rewrite Htrm. simpl. split; [congruence|]. split; [congruence|].
      split; [lia|]. split.
      * exists o0k. split; [done|]. split; [by apply static_price|].
        rewrite Hpre, Hfd, Hrest. set_solver.
      * intros x o0 Hx0 _ Hah.
        assert (Hin : x ∈ pre ++ d).
        { eapply ahead_prefix; [apply flat_NoDup, (bi_side _ Hinv0)| |exact Hah].
          rewrite Hpre, Hfd, Hrest, app_assoc. done. }
        destruct (Hmk x o0 Hx0) as (o & Ho & _ & Hro & _).
        destruct (Hdropped x o Hin Ho) as [Hz _]. lia.
Qed.

Lemma crosses_Ok b t p : Order.price_cents t = Some p -> exists c, crosses b t = Ok c.
Proof.
  intros Hp. unfold crosses. rewrite Hp.
  destruct (Order.side t); [destruct (best_ask b)|destruct (best_bid b)]; eauto.
Qed.

(** One pass of the loop keeps the invariant, and a pass that goes on
    lowers the taker's remaining quantity. *)
Lemma match_step_spec env b0 t0 b t ts :
  loop_inv b0 t0 b t ts -> 0 < Order.remaining_qty t ->
  exists r, match_step env b t ts = Ok r /\
    match r with
    | Break b' => loop_inv b0 t0 b' t ts
    | Continue b' t' ts' => loop_inv b0 t0 b' t' ts' /\
                            Order.remaining_qty t' < Order.remaining_qty t
    end.
Proof.
  intros Hli Hpos.
  pose proof Hli as [Hinv0 Hinv Hsym Hown Hownp Hdom Hout Hnew Hst Hrem Htst Hmk Hfl Htr].
  assert (Hside : Order.side t = Order.side t0) by (by apply static_side).
  destruct Hnew as (_ & _ & [p0 Hp0] & _).
  rewrite <- (static_price _ _ Hst) in Hp0.
  destruct (crosses_Ok b _ _ Hp0) as [c Hc].
  unfold match_step. rewrite Hc. destruct c; [|by eexists].
  rewrite Hside.
  destruct (get_best_resting_spec (opposite (Order.side t0)) b Hinv)
    as (b1 & r & Hgbr & Hinv1 & Hfr & Hdr & Hr).
  rewrite Hgbr. destruct r as [[k m]|].
  - destruct Hr as (Hk & Hm & Hpq).
    eexists. split; [done|].
    by apply (loop_inv_fill env b0 t0 b t ts b1 k m).
  - eexists. split; [done|]. by apply (loop_inv_lookup b0 t0 b t ts b1).
Qed.

(** The loop, given as much fuel as the taker's remaining quantity. *)
Lemma match_loop_spec env fuel b0 t0 b t ts :
  loop_inv b0 t0 b t ts -> (Z.to_nat (Order.remaining_qty t) <= fuel)%nat ->
  exists b' t' ts', match_loop env fuel b t ts = Ok (b', t', ts') /\ loop_inv b0 t0 b' t' ts'.
Proof.
  revert b t ts. induction fuel as [|fuel IH]; intros b t ts Hli Hf; simpl.
  - destruct (0 <? Order.remaining_qty t) eqn:E; [apply Z.ltb_lt in E; lia|eauto].
  - destruct (0 <? Order.remaining_qty t) eqn:E; [|eauto].
    apply Z.ltb_lt in E.
    destruct (match_step_spec env b0 t0 b t ts Hli E) as ([b'|b' t' ts'] & -> & Hr); [eauto|].
    destruct Hr as [Hli' Hlt]. apply IH; [done|].
    pose proof (li_taker_rem _ _ _ _ _ Hli'). lia.
Qed.

(** * Resting the rest of a taker *)

(** Appending an id that no level holds to the deque at its price, after
    [_ensure_price_level]. *)
Lemma side_inv_rest s p k b1 :
  side_inv s b1 ->
  (exists o, orders b1 !! k = Some o /\ Order.side o = s /\ Order.price_cents o = Some p) ->
  (forall p' q, levels s b1 !! p' = Some q -> k ∉ q) ->
  let b2 := ensure_price_level s p b1 in
  let q := default [] (levels s b2 !! p) in
  side_inv s (set_levels s (<[p := q ++ [k]]> (levels s b2)) b2).
Proof.
  intros [Hso Hdo Hne Hnd Href] Hk Hnot b2 q.
  subst b2 q. unfold ensure_price_level.
  destruct (levels s b1 !! p) as [q0|] eqn:E; simpl.
  - rewrite E. simpl. constructor; autorewrite with book_access; try done.
    + intros x. rewrite Hdo, lookup_insert. case_decide; [subst; rewrite E|done].
      split; intros; by eexists.
    + intros x qx. rewrite lookup_insert. case_decide; [intros [= <-]|apply Hne].
      by destruct q0.
    + intros x qx. rewrite lookup_insert. case_decide as Ex; [intros [= <-]|apply Hnd].
      subst x. apply NoDup_app. split; [by eapply Hnd|]. split; [|apply NoDup_singleton].
      intros y Hy Hy'. apply list_elem_of_singleton in Hy' as ->. by apply (Hnot p q0).
    + intros x qx oid. rewrite lookup_insert. case_decide as Ex; [intros [= <-]|apply Href].
      subst x. intros Hin. apply elem_of_app in Hin as [Hin|Hin]; [by eapply Href|].
      apply list_elem_of_singleton in Hin as ->. done.
  - assert (Hp : p ∉ prices s b1) by (rewrite Hdo, E; by intros []).
    constructor; autorewrite with book_access; rewrite ?lookup_insert_eq, ?insert_insert_eq; simpl.
    + by apply insort_sorted.
    + intros x. rewrite insort_perm, elem_of_cons, Hdo, lookup_insert.
      case_decide; [subst; split; intros; [by eexists|by left]|].
      split; [intros [->|Hx]; done|intros Hx; by right].
    + intros x qx. rewrite lookup_insert. case_decide; [intros [= <-]; discriminate|].
      apply Hne.
    + intros x qx. rewrite lookup_insert. case_decide; [intros [= <-]; apply NoDup_singleton|].
      apply Hnd.
    + intros x qx oid. rewrite lookup_insert. case_decide as Ex.
      * intros [= <-] Hin. apply list_elem_of_singleton in Hin as ->. subst x. done.
      * apply Href.
Qed.

Lemma frame_ensure s p b : frame s b (ensure_price_level s p b).
Proof.
  unfold ensure_price_level. destruct (levels s b !! p); [apply frame_refl|].
  eapply frame_trans; [apply frame_set_levels|apply frame_set_prices].
Qed.

(** [add_resting_limit] on an order whose id the book does not know. *)
Lemma add_resting_limit_spec o b p :
  book_inv b -> orders b !! Order.order_id o = None -> Order.price_cents o = Some p ->
  order_ok (symbol b) (Order.order_id o) (Order.with_status o RESTING) ->
  exists b', add_resting_limit o b = Ok (b', Order.with_status o RESTING) /\ book_inv b' /\
    orders b' = <[Order.order_id o := Order.with_status o RESTING]> (orders b) /\
    symbol b' = symbol b.
Proof.
  intros Hinv Hnone Hp Hok.
  assert (Hsym : Order.symbol o = symbol b) by apply Hok.
  unfold add_resting_limit. rewrite bool_decide_eq_true_2 by done. simpl. rewrite Hp.
  set (k := Order.order_id o). set (o' := Order.with_status o RESTING).
  set (b1 := set_orders (<[k := o']> (orders b)) b).
  set (s := Order.side o).
  assert (Hinv1 : book_inv b1).
  { constructor.
    - intros x ox. unfold b1. simpl. rewrite lookup_insert. case_decide as E.
      + intros [= <-]. subst x. done.
      + intros Hx. by apply (bi_orders _ Hinv).
    - intros s0. apply side_inv_set_order; [apply (bi_side _ Hinv)|].
      intros m Hm. fold k in Hnone. congruence. }
  eexists. split; [done|].
  set (b2 := ensure_price_level s p b1).
  set (q := default [] (levels s b2 !! p)).
  assert (Hfr : frame s b1 (set_levels s (<[p := q ++ [k]]> (levels s b2)) b2)).
  { eapply frame_trans; [apply frame_ensure|apply frame_set_levels]. }
  split; [|destruct Hfr as (-> & -> & _); done].
  eapply book_inv_frame; [exact Hinv1|exact Hfr|].
  apply side_inv_rest.
  - apply (bi_side _ Hinv1).
  - exists o'. unfold b1. simpl. by rewrite lookup_insert_eq.
  - intros p' qx Hqx Hin. unfold b1 in Hqx. rewrite levels_set_orders in Hqx.
    destruct (si_ref _ _ (bi_side _ Hinv s) p' qx k Hqx Hin) as (ox & Hox & _).
    fold k in Hnone. congruence.
Qed.

(** * [match_order] *)

(** What [Order(...)] guarantees of a fresh order. *)
Lemma fresh_spec b o :
  fresh b o ->
  Order.status o = NEW /\ Order.active o = true /\ Order.remaining_qty o = Order.qty o /\
  0 < Order.qty o /\ orders b !! Order.order_id o = None /\
  (Order.type o = LIMIT -> exists p, Order.price_cents o = Some p /\ 0 < p).
Proof.
  intros [Hnew Hnone]. unfold Order.new in Hnew.
  destruct (Order.qty o <=? 0) eqn:Eq; [done|]. apply Z.leb_gt in Eq.
  destruct (Order.type o) eqn:Et; destruct (Order.price_cents o) as [p|] eqn:Ep; try done.
  - destruct (p <=? 0) eqn:Epp; [done|]. apply Z.leb_gt in Epp.
    injection Hnew as <-. simpl. repeat split; try done. intros _. by exists p.
  - injection Hnew as <-. simpl. by repeat split.
Qed.

Lemma loop_inv_init b t0 :
  book_inv b -> fresh b t0 -> Order.symbol t0 = symbol b -> Order.type t0 = LIMIT ->
  loop_inv b t0 b t0 [].
Proof.
  intros Hinv Hf Hsym Hty.
  destruct (fresh_spec _ _ Hf) as (Hst & Ha & Hr & Hq & Hnone & Hp).
  destruct (Hp Hty) as (p & Hpp & _).
  constructor; try done.
  - simpl. lia.
  - by left.
  - intros x o0 Hx. exists o0. split; [done|]. split; [done|].
    split; [rewrite sum_maker_nil; lia|apply status_moves_refl].
  - exists []. split; [done|]. intros x o Hx. by apply elem_of_nil in Hx.
Qed.

Lemma sum_qty_nonneg b0 t0 ts :
  (forall j tr, ts !! j = Some tr -> trade_ok b0 t0 (take j ts) tr) -> 0 <= sum_qty ts.
Proof.
  intros Htr. assert (Hq : forall tr, tr ∈ ts -> 0 < Trade.qty tr).
  { intros tr Hin. apply list_elem_of_lookup in Hin as [j Hj]. apply (Htr j tr Hj). }
  clear Htr. induction ts as [|tr ts IH]; simpl; [done|].
  pose proof (Hq tr ltac:(left)). assert (0 <= sum_qty ts) by (apply IH; set_solver). lia.
Qed.

Lemma match_post_reject b t0 : book_inv b -> match_post b t0 b (reject t0) [].
Proof.
  intros Hinv. constructor; try done.
  - simpl. lia.
  - by left.
  - intros x o0 Hx. exists o0. split; [done|]. split; [done|].
    split; [rewrite sum_maker_nil; lia|apply status_moves_refl].
Qed.

(** The end of the loop: the taker is either exhausted or rests. *)
Lemma match_post_loop b0 t0 b t ts :
  loop_inv b0 t0 b t ts -> Order.remaining_qty t0 = Order.qty t0 -> 0 < Order.qty t0 ->
  if 0 <? Order.remaining_qty t then
    exists b', add_resting_limit t b = Ok (b', Order.with_status t RESTING) /\
      match_post b0 t0 b' (Order.with_status t RESTING) ts
  else match_post b0 t0 b t ts.
Proof.
  intros Hli Hr0 Hq0.
  pose proof Hli as [Hinv0 Hinv Hsym Hown Hownp Hdom Hout Hnew Hst Hrem Htst Hmk Hfl Htr].
  assert (Hid : Order.order_id t = Order.order_id t0) by (by apply static_id).
  assert (Hnone : orders b !! Order.order_id t = None).
  { rewrite Hid. destruct (orders b !! Order.order_id t0) eqn:E; [|done].
    destruct (proj1 (Hdom _) ltac:(by eexists)). congruence. }
  destruct (0 <? Order.remaining_qty t) eqn:Epos.
  - apply Z.ltb_lt in Epos.
    destruct Hnew as (Hs0 & Ha0 & [p Hp] & Hsy0 & Hty0 & _).
    rewrite <- (static_price _ _ Hst) in Hp.
    assert (Ha : Order.active t = true).
    { destruct Htst as [[-> _]|[(_ & Ha & _)|(_ & _ & Hz)]]; [done|done|lia]. }
    assert (Hok : order_ok (symbol b) (Order.order_id t) (Order.with_status t RESTING)).
    { unfold order_ok. simpl. split; [done|]. split.
      { rewrite (static_symbol _ _ Hst). congruence. }
      split; [by rewrite (static_type _ _ Hst)|]. split; [by eexists|].
      split; [|left; split; [by left|split; [done|lia]]].
      rewrite (static_qty _ _ Hst). pose proof (sum_qty_nonneg _ _ _ Htr). lia. }
    destruct (add_resting_limit_spec t b p Hinv Hnone Hp Hok) as (b' & Hadd & Hinv' & Ho' & Hs').
    exists b'. split; [done|]. constructor; try done.
    + congruence.
    + simpl. lia.
    + right; left. simpl. repeat split; [done|lia|]. rewrite Ho', Hid. by rewrite lookup_insert_eq.
    + intros x Hx. rewrite Ho', lookup_insert_ne by congruence. apply Hdom.
    + intros x o0 Hx. destruct (Hmk x o0 Hx) as (o & Ho & Hrest).
      exists o. rewrite Ho', lookup_insert_ne; [done|].
      intros Hxe. rewrite Hid in Hxe. subst x. congruence.
  - apply Z.ltb_ge in Epos. constructor; try done.
    + lia.
    + right; right.
      destruct Htst as [[-> ->]|[(_ & _ & Hz)|(Hf & Ha & Hz)]]; [lia|lia|].
      repeat split; try done. by rewrite <- Hid.
Qed.

(** [match_order] on a valid book and a fresh taker raises nothing, and
    leaves behind what [match_post] says. *)
Lemma match_order_spec env b t0 :
  book_inv b -> fresh b t0 ->
  exists b' t' ts, match_order env b t0 = Ok (b', t', ts) /\ match_post b t0 b' t' ts.
Proof.
  intros Hinv Hf.
  destruct (fresh_spec _ _ Hf) as (Hst & Ha & Hr & Hq & Hnone & Hp).
  unfold match_order.
  destruct (bool_decide (Order.symbol t0 = symbol b)) eqn:Es; simpl;
    [|do 3 eexists; split; [done|by apply match_post_reject]].
  apply bool_decide_eq_true_1 in Es.
  destruct (Order.type t0) eqn:Et;
    [|do 3 eexists; split; [done|by apply match_post_reject]].
  pose proof (loop_inv_init b t0 Hinv Hf Es Et) as Hli0.
  destruct (match_loop_spec env (Z.to_nat (Order.remaining_qty t0)) b t0 b t0 [] Hli0 (le_n _))
    as (b1 & t1 & ts & -> & Hli).
  pose proof (match_post_loop _ _ _ _ _ Hli Hr Hq) as Hpost.
  destruct (0 <? Order.remaining_qty t1).
  - destruct Hpost as (b' & -> & Hpost). eauto.
  - eauto.
Qed.

(** * [cancel] and reachable books *)

Lemma cancel_inv oid b : book_inv b -> book_inv (fst (cancel oid b)).
Proof.
  intros Hinv. unfold cancel.
  destruct (orders b !! oid) as [o|] eqn:Ho; [|done].
  destruct (negb (Order.active o) || (Order.remaining_qty o =? 0)) eqn:E; [done|simpl].
  apply orb_false_iff in E as [Ea Er]. apply negb_false_iff in Ea. apply Z.eqb_neq in Er.
  pose proof (bi_orders _ Hinv oid o Ho) as Hok.
  constructor.
  - intros x ox. simpl. rewrite lookup_insert. case_decide as Ex.
    + intros [= <-]. subst x.
      destruct Hok as (Hid & Hsy & Hty & Hpr & Hb & _).
      unfold order_ok. simpl. repeat split; try done; try lia. right. split; [by right|done].
    + intros Hx. by apply (bi_orders _ Hinv).
  - intros s. apply side_inv_set_order; [apply (bi_side _ Hinv)|].
    intros m Hm. rewrite Ho in Hm. by injection Hm as <-.
Qed.

Lemma init_inv sym : book_inv (init sym).
Proof.
  constructor.
  - intros oid o. simpl. by rewrite lookup_empty.
  - intros s. constructor; destruct s; simpl; try (intros ?; rewrite lookup_empty; done).
    all: try apply SSorted_nil.
    all: intros p; rewrite lookup_empty; split; [intros Hp; by apply elem_of_nil in Hp|by intros []].
Qed.

Lemma reachable_inv b : reachable b -> book_inv b.
Proof.
  induction 1 as [sym|b env o b' o' trades _ IH Hf Hm|b oid _ IH|b s b' r _ IH Hg].
  - apply init_inv.
  - destruct (match_order_spec env b o IH Hf) as (b2 & t2 & ts2 & Hm2 & Hpost).
    rewrite Hm in Hm2. injection Hm2 as -> -> ->. apply Hpost.
  - by apply cancel_inv.
  - destruct (get_best_resting_spec s b IH) as (b2 & r2 & Hg2 & Hinv2 & _).
    rewrite Hg in Hg2. by injection Hg2 as -> ->.
Qed.

Lemma statuses_same_orders b b' :
  orders b' = orders b ->
  (forall x o, orders b !! x = Some o ->
     exists o', orders b' !! x = Some o' /\ status_moves (Order.status o) (Order.status o')) /\
  (forall x o', orders b !! x = None -> orders b' !! x = Some o' -> Order.status o' = RESTING).
Proof.
  intros ->. split; [|intros; congruence].
  intros x o Hx. exists o. split; [done|apply status_moves_refl].
Qed.

(** What one public operation does to the statuses of the book's orders. *)
Lemma book_step_spec b b' :
  reachable b -> book_step b b' ->
  reachable b' /\
  (forall x o, orders b !! x = Some o ->
     exists o', orders b' !! x = Some o' /\ status_moves (Order.status o) (Order.status o')) /\
  (forall x o', orders b !! x = None -> orders b' !! x = Some o' -> Order.status o' = RESTING).
Proof.
  intros Hr Hs. pose proof (reachable_inv _ Hr) as Hinv.
  destruct Hs as [b env o b' o' ts Hf Hm|b oid|b s b' r Hg].
  - split; [by eapply reach_match|].
    destruct (match_order_spec env b o Hinv Hf) as (b2 & t2 & ts2 & Hm2 & Hpost).
    rewrite Hm in Hm2. injection Hm2 as <- <- <-.
    destruct Hpost as [_ _ _ _ Htst Hdom Hmk _]. split.
    + intros x o0 Hx. destruct (Hmk x o0 Hx) as (o1 & Ho1 & _ & _ & Hmv). by exists o1.
    + intros x o1 Hx Hx'. destruct (decide (x = Order.order_id o)) as [->|Hne].
      * destruct Htst as [(_ & _ & -> & _)|[(Hst & _ & _ & Ho)|(_ & _ & _ & Ho)]]; congruence.
      * destruct (proj1 (Hdom x Hne) ltac:(by eexists)). congruence.
  - split; [by apply reach_cancel|]. unfold cancel.
    destruct (orders b !! oid) as [o|] eqn:Ho; [|simpl; by apply statuses_same_orders].
    destruct (negb (Order.active o) || (Order.remaining_qty o =? 0)) eqn:E;
      [simpl; by apply statuses_same_orders|simpl].
    apply orb_false_iff in E as [Ea Er]. apply negb_false_iff in Ea. apply Z.eqb_neq in Er.
    split.
    + intros x o0 Hx. rewrite lookup_insert. case_decide as Ex;
        [|exists o0; split; [done|apply status_moves_refl]].
      subst x. rewrite Ho in Hx. injection Hx as <-. eexists. split; [done|].
      pose proof (bi_orders _ Hinv oid o Ho) as (_ & _ & _ & _ & Hb & Hst).
      right. simpl. destruct Hst as [([-> | ->] & _)|(_ & Ha & _)]; [done|done|congruence].
    + intros x o1 Hx. rewrite lookup_insert. case_decide; [subst; congruence|intros; congruence].
  - split; [by eapply reach_lookup|].
    destruct (get_best_resting_spec s b Hinv) as (b2 & r2 & Hg2 & _ & (Hor & _) & _).
    rewrite Hg in Hg2. injection Hg2 as <- <-. by apply statuses_same_orders.
Qed.

Lemma order_ok_not_new sym x o : order_ok sym x o -> Order.status o <> NEW.
Proof. intros (_ & _ & _ & _ & _ & [([-> | ->] & _)|([-> | ->] & _)]); done. Qed.

Lemma order_ok_terminal sym x o :
  order_ok sym x o -> terminal (Order.status o) = true -> Order.active o = false.
Proof. intros (_ & _ & _ & _ & _ & [([-> | ->] & _)|(_ & Ha & _)]); done. Qed.

(** Statuses along a sequence of public operations. *)
Lemma book_steps_spec b b' :
  rtc book_step b b' -> reachable b ->
  reachable b' /\
  (forall x o, orders b !! x = Some o ->
     exists o', orders b' !! x = Some o' /\ status_moves (Order.status o) (Order.status o')) /\
  (forall x o', orders b !! x = None -> orders b' !! x = Some o' ->
     status_moves RESTING (Order.status o')).
Proof.
  induction 1 as [b|b b1 b' Hs _ IH]; intros Hr.
  - split; [done|]. split; [|intros; congruence].
    intros x o Hx. exists o. split; [done|apply status_moves_refl].
  - destruct (book_step_spec b b1 Hr Hs) as (Hr1 & Hmv1 & Hnew1).
    destruct (IH Hr1) as (Hr' & Hmv' & Hnew'). split; [done|]. split.
    + intros x o Hx. destruct (Hmv1 x o Hx) as (o1 & Ho1 & Hm1).
      destruct (Hmv' x o1 Ho1) as (o' & Ho' & Hm'). exists o'. split; [done|].
      eapply status_moves_trans; [|exact Hm1|exact Hm'].
      eapply order_ok_not_new, (bi_orders _ (reachable_inv _ Hr)), Hx.
    + intros x o' Hx Hx'. destruct (orders b1 !! x) as [o1|] eqn:Ho1.
      * rewrite <- (Hnew1 x o1 Hx Ho1).
        destruct (Hmv' x o1 Ho1) as (o2 & Ho2 & Hm). congruence.
      * by apply (Hnew' x).
Qed.

Lemma reachable_run_match b o : reachable b -> fresh b o -> reachable (run_match o b).
Proof.
  intros Hr Hf. unfold run_match.
  destruct (match_order_spec env0 b o (reachable_inv _ Hr) Hf) as (b' & t' & ts & Hm & _).
  rewrite Hm. by eapply reach_match.
Qed.

Lemma reachable_bookA : reachable bookA.
Proof. apply reachable_run_match; [apply reach_init|fresh_closed]. Qed.

Lemma reachable_bookF : reachable bookF.
Proof.
  apply reachable_run_match; [|fresh_closed].
  apply reachable_run_match; [apply reach_init|fresh_closed].
Qed.

Lemma reachable_bookB : reachable bookB.
Proof. apply reachable_run_match; [apply reach_init|fresh_closed]. Qed.

(** * The claims *)

(** C1 (price bound). The code does not keep it: [match_order] tests the
    crossing against [best_ask()]/[best_bid()] before [get_best_resting]
    reaps stale levels, and [get_best_resting] then recurses to the next,
    worse level. On [bookC1] (an ask at 100 already filled but still
    listed, and a live ask at 200) a BUY limit 100 trades at 200. *)
Theorem C1_limit_violated :
  reachable bookC1 /\ fresh bookC1 (lim "b2" BUY 1 100) /\
  trades_of (lim "b2" BUY 1 100) bookC1 = [(Some 200, 1, "s2")].
Proof.
  split; [|split; [fresh_closed|eval_lhs; reflexivity]].
  apply reachable_run_match; [|fresh_closed].
  apply reachable_run_match; [|fresh_closed].
  apply reachable_run_match; [apply reach_init|fresh_closed].
Qed.

(** C2 (conservation). For a reachable book and a fresh taker, the
    taker's remaining quantity after [match_order] plus the quantities of
    the returned trades is its remaining quantity before; and every order
    of the book is still there, having lost exactly the quantities of the
    trades naming it as maker. *)
Theorem C2_conservation env b t0 b' t' ts :
  reachable b -> fresh b t0 -> match_order env b t0 = Ok (b', t', ts) ->
  Order.remaining_qty t' + sum_qty ts = Order.remaining_qty t0 /\
  (forall x o0, orders b !! x = Some o0 ->
     exists o, orders b' !! x = Some o /\
       Order.remaining_qty o0 - Order.remaining_qty o = sum_maker x ts).
Proof.
  intros Hr Hf Hm.
  destruct (match_order_spec env b t0 (reachable_inv _ Hr) Hf) as (b2 & t2 & ts2 & Hm2 & Hpost).
  rewrite Hm in Hm2. injection Hm2 as <- <- <-.
  split; [apply Hpost|].
  intros x o0 Hx. destruct (mp_makers _ _ _ _ _ Hpost x o0 Hx) as (o & Ho & _ & Hrem & _).
  eauto.
Qed.

Lemma C2_witness :
  exists b' t' ts, match_order env0 bookA (lim "b" BUY 4 18760) = Ok (b', t', ts) /\
    (Order.remaining_qty t' + sum_qty ts = Order.remaining_qty (lim "b" BUY 4 18760) /\
     (forall x o0, orders bookA !! x = Some o0 ->
        exists o, orders b' !! x = Some o /\
          Order.remaining_qty o0 - Order.remaining_qty o = sum_maker x ts)).
Proof.
  eexists _, _, _. split; [eval_lhs; reflexivity|].
  apply (C2_conservation env0 bookA (lim "b" BUY 4 18760));
    [apply reachable_bookA|fresh_closed|eval_lhs; reflexivity].
Defined.

(** C3, counterexample. [add_resting_limit] sets RESTING whatever the
    order's status: applied to the order [s] of [bookA] after [cancel "s"]
    (CANCELED, a terminal status), it moves it to RESTING with [active]
    still false, and stores it so in the book. *)
Lemma C3_counterexample :
  reachable (fst (cancel "s" bookA)) /\
  orders (fst (cancel "s" bookA)) !! "s" = Some canceledA /\
  Order.status canceledA = CANCELED /\
  exists b2, add_resting_limit canceledA (fst (cancel "s" bookA)) =
               Ok (b2, Order.with_status canceledA RESTING) /\
    orders b2 !! "s" = Some (Order.with_status canceledA RESTING) /\
    Order.status (Order.with_status canceledA RESTING) = RESTING /\
    Order.active (Order.with_status canceledA RESTING) = false.
Proof.
  split; [apply reach_cancel, reachable_bookA|].
  split; [eval_lhs; reflexivity|]. split; [reflexivity|].
  eexists. split; [eval_lhs; reflexivity|]. split; [eval_lhs; reflexivity|done].
Qed.

(** C3 (amended). Over any sequence of public operations ([match_order]
    with fresh takers, [cancel], [get_best_resting]) from a reachable
    book: an order of the book only moves along the edges NEW ->
    {REJECTED, RESTING, FILLED}, RESTING -> {PARTIAL, FILLED, CANCELED},
    PARTIAL -> {FILLED, CANCELED}, and never leaves a terminal status; an
    order that enters the book enters it as RESTING (it has status RESTING
    right after the operation that adds it, and moves on from RESTING
    along the edges afterwards); every terminal order
    of the book is inactive; and a taker comes out of [match_order] one edge
    away from NEW, inactive when terminal. ([add_resting_limit] called on
    its own does not keep this, see [C3_counterexample].) *)
Theorem C3_status_machine b b' :
  reachable b -> rtc book_step b b' ->
  (forall x o, orders b !! x = Some o ->
     exists o', orders b' !! x = Some o' /\ status_moves (Order.status o) (Order.status o') /\
       (terminal (Order.status o) = true -> Order.status o' = Order.status o)) /\
  (forall x o', orders b !! x = None -> orders b' !! x = Some o' ->
     status_moves RESTING (Order.status o')) /\
  (forall b'', book_step b' b'' -> forall x o'', orders b' !! x = None ->
     orders b'' !! x = Some o'' -> Order.status o'' = RESTING) /\
  (forall x o', orders b' !! x = Some o' -> terminal (Order.status o') = true ->
     Order.active o' = false) /\
  (forall env t b2 t2 ts, fresh b' t -> match_order env b' t = Ok (b2, t2, ts) ->
     status_edge NEW (Order.status t2) = true /\
     (terminal (Order.status t2) = true -> Order.active t2 = false)).
Proof.
  intros Hr Hsteps.
  destruct (book_steps_spec b b' Hsteps Hr) as (Hr' & Hmv & Hnew).
  pose proof (reachable_inv _ Hr') as Hinv'.
  split; [|split; [done|split; [|split]]].
  - intros x o Hx. destruct (Hmv x o Hx) as (o' & Ho' & Hm). exists o'.
    split; [done|]. split; [done|]. intros Ht. by apply status_moves_terminal.
  - intros b'' Hs. apply (book_step_spec b' b'' Hr' Hs).
  - intros x o' Hx. by eapply order_ok_terminal, (bi_orders _ Hinv').
  - intros env t b2 t2 ts Hf Hm.
    destruct (match_order_spec env b' t Hinv' Hf) as (b3 & t3 & ts3 & Hm3 & Hpost).
    rewrite Hm in Hm3. injection Hm3 as <- <- <-.
    destruct (mp_taker_status _ _ _ _ _ Hpost)
      as [(-> & -> & _)|[(-> & -> & _)|(-> & -> & _)]]; done.
Qed.

Lemma C3_witness :
  rtc book_step bookA (fst (cancel "s" bookA)) /\
  ((forall x o, orders bookA !! x = Some o ->
     exists o', orders (fst (cancel "s" bookA)) !! x = Some o' /\
       status_moves (Order.status o) (Order.status o') /\
       (terminal (Order.status o) = true -> Order.status o' = Order.status o)) /\
   (forall x o', orders bookA !! x = None -> orders (fst (cancel "s" bookA)) !! x = Some o' ->
     status_moves RESTING (Order.status o')) /\
   (forall b'', book_step (fst (cancel "s" bookA)) b'' -> forall x o'',
     orders (fst (cancel "s" bookA)) !! x = None -> orders b'' !! x = Some o'' ->
     Order.status o'' = RESTING) /\
   (forall x o', orders (fst (cancel "s" bookA)) !! x = Some o' ->
     terminal (Order.status o') = true -> Order.active o' = false) /\
   (forall env t b2 t2 ts, fresh (fst (cancel "s" bookA)) t ->
     match_order env (fst (cancel "s" bookA)) t = Ok (b2, t2, ts) ->
     status_edge NEW (Order.status t2) = true /\
     (terminal (Order.status t2) = true -> Order.active t2 = false))).
Proof.
  assert (Hs : rtc book_step bookA (fst (cancel "s" bookA))) by apply rtc_once, step_cancel.
  split; [exact Hs|]. exact (C3_status_machine _ _ reachable_bookA Hs).
Defined.

(** C4 (soft rejection). A taker whose symbol is not the book's, or whose
    type is MARKET, comes back REJECTED and inactive (its other fields as
    they were), with no trade, no exception and the very same book. *)
Theorem C4_reject env b t :
  Order.symbol t <> symbol b \/ Order.type t = MARKET ->
  match_order env b t = Ok (b, reject t, []) /\
  Order.status (reject t) = REJECTED /\ Order.active (reject t) = false /\
  static (reject t) = static t /\ Order.remaining_qty (reject t) = Order.remaining_qty t.
Proof.
  intros H. split; [|done]. unfold match_order.
  destruct H as [H|H].
  - by rewrite bool_decide_eq_false_2.
  - destruct (bool_decide _); simpl; [rewrite H|]; done.
Qed.

Lemma C4_witness :
  match_order env0 bookA (Order.mk "u" "MSFT" BUY LIMIT 5 (Some 100) None "m" 0 5 NEW true) =
    Ok (bookA, reject (Order.mk "u" "MSFT" BUY LIMIT 5 (Some 100) None "m" 0 5 NEW true), []) /\
  Order.status (reject (Order.mk "u" "MSFT" BUY LIMIT 5 (Some 100) None "m" 0 5 NEW true)) = REJECTED /\
  Order.active (reject (Order.mk "u" "MSFT" BUY LIMIT 5 (Some 100) None "m" 0 5 NEW true)) = false /\
  static (reject (Order.mk "u" "MSFT" BUY LIMIT 5 (Some 100) None "m" 0 5 NEW true)) =
    static (Order.mk "u" "MSFT" BUY LIMIT 5 (Some 100) None "m" 0 5 NEW true) /\
  Order.remaining_qty (reject (Order.mk "u" "MSFT" BUY LIMIT 5 (Some 100) None "m" 0 5 NEW true)) =
    Order.remaining_qty (Order.mk "u" "MSFT" BUY LIMIT 5 (Some 100) None "m" 0 5 NEW true).
Proof.
  apply C4_reject. left. vm_compute. intros Heq. discriminate Heq.
Defined.

(** C5 (cancel). On a reachable book, [cancel oid] succeeds exactly when
    the order exists, is active and has something left; then the order is
    CANCELED, has nothing left and is inactive (its other fields as they
    were), and no other order changes; a second cancel of the same id and
    a cancel of an unknown id fail; no level and no price array changes. *)
Theorem C5_cancel b oid :
  reachable b ->
  (snd (cancel oid b) = true <->
     exists o, orders b !! oid = Some o /\ Order.active o = true /\ 0 < Order.remaining_qty o) /\
  (snd (cancel oid b) = true ->
     exists o o', orders b !! oid = Some o /\ orders (fst (cancel oid b)) !! oid = Some o' /\
       Order.status o' = CANCELED /\ Order.remaining_qty o' = 0 /\ Order.active o' = false /\
       static o' = static o) /\
  (forall x, x <> oid -> orders (fst (cancel oid b)) !! x = orders b !! x) /\
  snd (cancel oid (fst (cancel oid b))) = false /\
  (orders b !! oid = None -> snd (cancel oid b) = false) /\
  (forall s, levels s (fst (cancel oid b)) = levels s b /\
             prices s (fst (cancel oid b)) = prices s b).
Proof.
  intros Hr. pose proof (reachable_inv _ Hr) as Hinv.
  unfold cancel. destruct (orders b !! oid) as [o|] eqn:Ho.
  2:{ simpl. rewrite Ho. split; [split; [done|intros (? & ? & _); congruence]|].
      split; [done|]. split; [done|]. split; [done|]. split; done. }
  pose proof (bi_orders _ Hinv oid o Ho) as (_ & _ & _ & _ & Hb & _).
  destruct (negb (Order.active o) || (Order.remaining_qty o =? 0)) eqn:E; simpl.
  - rewrite Ho, E. apply orb_true_iff in E.
    split; [split; [done|]|].
    { intros (o1 & Ho1 & Ha & Hp). injection Ho1 as <-.
      destruct E as [E|E]; [rewrite Ha in E; done|apply Z.eqb_eq in E; lia]. }
    split; [done|]. split; [done|]. split; [done|]. split; [done|]. done.
  - apply orb_false_iff in E as [Ea Er]. apply negb_false_iff in Ea. apply Z.eqb_neq in Er.
    rewrite lookup_insert_eq. simpl.
    split; [split; [intros _; exists o; split; [done|]; split; [done|lia]|done]|].
    split; [intros _; exists o; eexists; split; [done|]; split; [done|]; by repeat split|].
    split; [intros x Hx; by rewrite lookup_insert_ne by done|].
    split; [done|]. split; [congruence|].
    intros s. by rewrite levels_set_orders, prices_set_orders.
Qed.

Lemma C5_witness :
  (snd (cancel "s" bookA) = true <->
     exists o, orders bookA !! "s" = Some o /\ Order.active o = true /\ 0 < Order.remaining_qty o) /\
  (snd (cancel "s" bookA) = true ->
     exists o o', orders bookA !! "s" = Some o /\ orders (fst (cancel "s" bookA)) !! "s" = Some o' /\
       Order.status o' = CANCELED /\ Order.remaining_qty o' = 0 /\ Order.active o' = false /\
       static o' = static o) /\
  (forall x, x <> "s" -> orders (fst (cancel "s" bookA)) !! x = orders bookA !! x) /\
  snd (cancel "s" (fst (cancel "s" bookA))) = false /\
  (orders bookA !! "s" = None -> snd (cancel "s" bookA) = false) /\
  (forall s, levels s (fst (cancel "s" bookA)) = levels s bookA /\
             prices s (fst (cancel "s" bookA)) = prices s bookA).
Proof. apply C5_cancel, reachable_bookA. Defined.

(** C6 (price-time priority). Let [x] be an eligible order resting, at the
    start of the call, in the queue [qx] at price [px] of the side the taker
    trades against. If the maker of the [j]-th returned trade was resting
    at a strictly worse price than [px], or after [x] in the same queue,
    then the trades before the [j]-th one already took all that [x] had
    left: [x] was fully consumed before that maker received anything. *)
Theorem C6_price_time_priority env b t0 b' t' ts j tr x o0 px qx :
  reachable b -> fresh b t0 -> match_order env b t0 = Ok (b', t', ts) ->
  ts !! j = Some tr ->
  orders b !! x = Some o0 -> eligible o0 = true ->
  levels (opposite (Order.side t0)) b !! px = Some qx -> x ∈ qx ->
  ((exists pm qm, levels (opposite (Order.side t0)) b !! pm = Some qm /\
      Trade.maker_order_id tr ∈ qm /\ better (opposite (Order.side t0)) px pm) \/
   (exists i1 i2, qx !! i1 = Some x /\ qx !! i2 = Some (Trade.maker_order_id tr) /\
      (i1 < i2)%nat)) ->
  sum_maker x (take j ts) = Order.remaining_qty o0.
Proof.
  intros Hr Hf Hm Hj Hx He Hqx Hxq Hworse.
  pose proof (reachable_inv _ Hr) as Hinv.
  destruct (match_order_spec env b t0 Hinv Hf) as (b2 & t2 & ts2 & Hm2 & Hpost).
  rewrite Hm in Hm2. injection Hm2 as <- <- <-.
  destruct (mp_trades _ _ _ _ _ Hpost j tr Hj) as (_ & _ & _ & _ & Hprio).
  apply (Hprio x o0 Hx He).
  pose proof (bi_side _ Hinv (opposite (Order.side t0))) as Hsi.
  destruct Hworse as [(pm & qm & Hqm & Hmq & Hbt)|(i1 & i2 & H1 & H2 & Hlt)].
  - exact (ahead_better _ _ _ _ _ _ _ _ Hsi Hqx Hqm Hxq Hmq Hbt).
  - exact (ahead_same_level _ _ _ _ _ _ _ _ Hsi Hqx H1 H2 Hlt).
Qed.

Lemma C6_witness :
  exists b' t' ts tr o0,
    match_order env0 bookF (lim "b" BUY 2 100) = Ok (b', t', ts) /\ ts !! 1%nat = Some tr /\
    orders bookF !! "s1" = Some o0 /\ sum_maker "s1" (take 1 ts) = Order.remaining_qty o0.
Proof.
  eexists _, _, _, _, _.
  split; [eval_lhs; reflexivity|]. split; [eval_lhs; reflexivity|].
  split; [eval_lhs; reflexivity|].
  eapply (C6_price_time_priority env0 bookF (lim "b" BUY 2 100) _ _ _ 1%nat _ "s1" _ 100 ["s1"; "s2"]);
    [apply reachable_bookF|fresh_closed|eval_lhs; reflexivity|eval_lhs; reflexivity
    |eval_lhs; reflexivity|eval_lhs; reflexivity|eval_lhs; reflexivity|left|].
  right. exists 0%nat, 1%nat. split; [reflexivity|]. split; [eval_lhs; reflexivity|lia].
Defined.

(** C7 ([get_best_resting]). On a reachable book the lookup of a side
    raises nothing and: touches no order and nothing of the other side;
    only drops, from the front of the side's priority order, entries that
    are not eligible; leaves no listed price without a nonempty queue;
    returns either an eligible order left at the head of the best queue,
    returned again by the next lookup, and still after a partial fill of it
    (any eligible new state of that order), or [None] when the side held no
    eligible order, with its price array emptied. *)
Theorem C7_get_best_resting b s :
  reachable b ->
  exists b' r, get_best_resting s b = Ok (b', r) /\
    orders b' = orders b /\
    levels (opposite s) b' = levels (opposite s) b /\
    prices (opposite s) b' = prices (opposite s) b /\
    (exists dropped, flat s b = dropped ++ flat s b' /\
       forall x o, x ∈ dropped -> orders b !! x = Some o -> eligible o = false) /\
    (forall p, p ∈ prices s b' -> exists q, levels s b' !! p = Some q /\ q <> []) /\
    match r with
    | Some (k, o) =>
        orders b !! k = Some o /\ eligible o = true /\
        (exists p q, best s b' = Some p /\ levels s b' !! p = Some (k :: q)) /\
        get_best_resting s b' = Ok (b', Some (k, o)) /\
        (forall o', eligible o' = true ->
           get_best_resting s (set_orders (<[k := o']> (orders b')) b') =
             Ok (set_orders (<[k := o']> (orders b')) b', Some (k, o')))
    | None =>
        prices s b' = [] /\
        (forall x o, x ∈ flat s b -> orders b !! x = Some o -> eligible o = false)
    end.
Proof.
  intros Hr. pose proof (reachable_inv _ Hr) as Hinv.
  destruct (get_best_resting_spec s b Hinv)
    as (b' & r & Hg & Hinv' & (Hor & _ & Hl & Hp) & (d & Hfd & Hd) & Hres).
  exists b', r. split; [done|]. split; [done|]. split; [done|]. split; [done|].
  split; [by exists d|].
  split.
  { intros p Hin. pose proof (bi_side _ Hinv' s) as Hsi.
    destruct (proj1 (si_dom _ _ Hsi p) Hin) as [q Hq]. exists q. split; [done|].
    by eapply si_nonempty. }
  destruct r as [[k o]|].
  - destruct Hres as (Hk & He & p & q & Hb & Hq).
    split; [done|]. split; [done|]. split; [by exists p, q|].
    split; [apply (get_best_resting_head _ _ p k q); [done|done|by rewrite Hor|done]|].
    intros o' He'. apply (get_best_resting_head _ _ p k q).
    + by rewrite best_set_orders.
    + by rewrite levels_set_orders.
    + simpl. by rewrite lookup_insert_eq.
    + done.
  - destruct Hres as [Hps Hfl]. split; [done|].
    intros x o Hx Hxo. apply (Hd x o); [|done]. by rewrite Hfd, Hfl, app_nil_r in Hx.
Qed.

Lemma C7_witness :
  exists b' r, get_best_resting SELL bookF = Ok (b', r) /\
    orders b' = orders bookF /\
    levels (opposite SELL) b' = levels (opposite SELL) bookF /\
    prices (opposite SELL) b' = prices (opposite SELL) bookF /\
    (exists dropped, flat SELL bookF = dropped ++ flat SELL b' /\
       forall x o, x ∈ dropped -> orders bookF !! x = Some o -> eligible o = false) /\
    (forall p, p ∈ prices SELL b' -> exists q, levels SELL b' !! p = Some q /\ q <> []) /\
    match r with
    | Some (k, o) =>
        orders bookF !! k = Some o /\ eligible o = true /\
        (exists p q, best SELL b' = Some p /\ levels SELL b' !! p = Some (k :: q)) /\
        get_best_resting SELL b' = Ok (b', Some (k, o)) /\
        (forall o', eligible o' = true ->
           get_best_resting SELL (set_orders (<[k := o']> (orders b')) b') =
             Ok (set_orders (<[k := o']> (orders b')) b', Some (k, o')))
    | None =>
        prices SELL b' = [] /\
        (forall x o, x ∈ flat SELL bookF -> orders bookF !! x = Some o -> eligible o = false)
    end.
Proof. apply C7_get_best_resting, reachable_bookF. Defined.

(** C8 ([snapshot_l2] depth). The code does not keep "at most n levels"
    for n = 0: the bids are taken as [bid_prices[-depth:]], and [-0] is
    [0] in Python, so [snapshot_l2(0)] reports every bid level, while the
    asks ([ask_prices[:0]]) come back empty. *)
Theorem C8_depth_zero :
  reachable bookB /\ snapshot_l2 0 bookB = ([(100, 3)], []).
Proof. split; [apply reachable_bookB|eval_lhs; reflexivity]. Qed.

(** C9 (termination). On a reachable book, [match_order] with a fresh
    taker ends without an exception: the model runs the loop with fuel
    [remaining_qty] and [get_best_resting] with fuel one more than the
    number of listed prices, and never runs out. Each pass of the loop
    either breaks or lowers the taker's remaining quantity by at least 1;
    each time [_pop_next_active_at_price] at the best price returns
    nothing (which is when [get_best_resting] calls itself again) the
    side has one listed price less. *)
Theorem C9_terminates env b t :
  reachable b -> fresh b t ->
  (exists r, match_order env b t = Ok r) /\
  (forall b1 t1 ts1, loop_inv b t b1 t1 ts1 -> 0 < Order.remaining_qty t1 ->
     exists r, match_step env b1 t1 ts1 = Ok r /\
       match r with
       | Break _ => True
       | Continue _ t2 _ => Order.remaining_qty t2 <= Order.remaining_qty t1 - 1
       end) /\
  (forall s b1 p b2, book_inv b1 -> best s b1 = Some p ->
     pop_next_active_at_price s p b1 = (b2, None) ->
     (length (prices s b2) < length (prices s b1))%nat).
Proof.
  intros Hr Hf. split; [|split].
  - destruct (match_order_spec env b t (reachable_inv _ Hr) Hf) as (b' & t' & ts & Hm & _).
    by exists (b', t', ts).
  - intros b1 t1 ts1 Hli Hpos.
    destruct (match_step_spec env b t b1 t1 ts1 Hli Hpos) as (r & Hs & Hr').
    exists r. split; [done|]. destruct r; [done|]. destruct Hr'. lia.
  - intros s b1 p b2 Hinv Hb Hpop.
    by destruct (pop_best_spec s b1 p b2 None Hinv Hb Hpop) as (_ & _ & _ & Hlen).
Qed.

Lemma C9_witness :
  (exists r, match_order env0 bookA (lim "b" BUY 4 18760) = Ok r) /\
  (forall b1 t1 ts1, loop_inv bookA (lim "b" BUY 4 18760) b1 t1 ts1 ->
     0 < Order.remaining_qty t1 ->
     exists r, match_step env0 b1 t1 ts1 = Ok r /\
       match r with
       | Break _ => True
       | Continue _ t2 _ => Order.remaining_qty t2 <= Order.remaining_qty t1 - 1
       end) /\
  (forall s b1 p b2, book_inv b1 -> best s b1 = Some p ->
     pop_next_active_at_price s p b1 = (b2, None) ->
     (length (prices s b2) < length (prices s b1))%nat).
Proof. apply C9_terminates; [apply reachable_bookA|fresh_closed]. Defined.

(** C10 (stale levels in the depth). [bookC10] is reachable: asks at 100
    and 200, then [cancel "s1"] of the ask at 100. Its queue at 100 still
    lists the canceled order, and [snapshot_l2] reports that price with
    total 0; with depth 1 it is the only ask level reported. *)
Theorem C10_stale_level :
  exists b, reachable b /\
    asks b !! 100 = Some ["s1"] /\
    option_map Order.status (orders b !! "s1") = Some CANCELED /\
    snapshot_l2 1 b = ([], [(100, 0)]) /\
    snapshot_l2 2 b = ([], [(100, 0); (200, 1)]).
Proof.
  exists bookC10. split.
  - apply reach_cancel.
    apply reachable_run_match; [|fresh_closed].
    apply reachable_run_match; [apply reach_init|fresh_closed].
  - split; [eval_lhs; reflexivity|]. split; [eval_lhs; reflexivity|].
    split; eval_lhs; reflexivity.
Qed.

(** ** Further properties of the book and the matcher *)

(** X1: Building an order succeeds exactly when the quantity is positive and the price is a positive price for a LIMIT order or absent for a MARKET order; the built order then has its full quantity remaining, status NEW and is active. Every failure is a ValueError. *)
Theorem order_new_validates u sym s ty q pc coid oid ms :
  (forall o, Order.new u sym s ty q pc coid oid ms = Ok o <->
     0 < q /\ (ty = LIMIT /\ (exists p, pc = Some p /\ 0 < p) \/ ty = MARKET /\ pc = None) /\
     o = Order.mk u sym s ty q pc coid oid ms q NEW true) /\
  (forall e, Order.new u sym s ty q pc coid oid ms = Err e -> e = ValueError).
Proof.
  unfold Order.new. split.
  - intros o. destruct (q <=? 0) eqn:Eq.
    + apply Z.leb_le in Eq. split; [done|lia].
    + apply Z.leb_gt in Eq. destruct ty, pc as [p|]; try (split; [done|]; intros (_ & [(? & ? & ? & _)|(? & ?)] & _); done).
      * destruct (p <=? 0) eqn:Ep.
        -- apply Z.leb_le in Ep. split; [done|]. intros (_ & [(_ & p' & [= <-] & ?)|(? & _)] & _); [lia|done].
        -- apply Z.leb_gt in Ep. split; [intros [= <-]; split; [done|]; split; [left; eauto|done]|].
           intros (_ & _ & ->). done.
      * split; [intros [= <-]; split; [done|]; split; [right; done|done]|]. intros (_ & _ & ->). done.
  - intros e. destruct (q <=? 0); [congruence|].
    destruct ty, pc as [p|]; try congruence. destruct (p <=? 0); congruence.
Qed.

(** X2: On a side whose price list is sorted and lists exactly the prices that have a level, ensuring a level at [p] touches nothing else, leaves the book unchanged when [p] is listed, and otherwise adds an empty level at [p] and inserts [p] into the price list, which stays sorted and in step with the levels. A second call changes nothing. *)
Theorem ensure_price_level_correct s p b :
  StronglySorted Z.lt (prices s b) ->
  (forall x, x ∈ prices s b <-> is_Some (levels s b !! x)) ->
  let b' := ensure_price_level s p b in
  frame s b b' /\
  (p ∈ prices s b -> b' = b) /\
  (p ∉ prices s b -> levels s b' = <[p := []]> (levels s b) /\ prices s b' ≡ₚ p :: prices s b) /\
  StronglySorted Z.lt (prices s b') /\
  (forall x, x ∈ prices s b' <-> is_Some (levels s b' !! x)) /\
  ensure_price_level s p b' = b'.
Proof.
  intros Hso Hdo b'. split; [apply frame_ensure|].
  destruct (levels s b !! p) as [q|] eqn:E.
  - assert (Hb : b' = b) by (subst b'; unfold ensure_price_level; by rewrite E).
    rewrite Hb. assert (Hp : p ∈ prices s b) by (apply Hdo; rewrite E; by eexists).
    split; [done|]. split; [done|]. split; [done|]. split; [done|].
    unfold ensure_price_level. by rewrite E.
  - assert (Hp : p ∉ prices s b) by (rewrite Hdo, E; by intros []).
    assert (Hb : b' = set_prices s (insort p (prices s b)) (set_levels s (<[p := []]> (levels s b)) b))
      by (subst b'; unfold ensure_price_level; by rewrite E).
    rewrite Hb. autorewrite with book_access.
    split; [done|]. split; [intros _; split; [done|apply insort_perm]|].
    split; [by apply insort_sorted|]. split.
    + intros x. rewrite insort_perm, elem_of_cons, Hdo, lookup_insert.
      case_decide; [subst; split; intros; [by eexists|by left]|].
      split; [intros [->|Hx]; done|intros Hx; by right].
    + unfold ensure_price_level. autorewrite with book_access. by rewrite lookup_insert_eq.
Qed.

(** X3: On a well-formed side, cleaning up the level at [p] removes [p] from the price list and its level from the map when that level is empty, keeping the other prices in order, and otherwise leaves the book unchanged; the side stays well formed. *)
Theorem cleanup_level_if_empty_correct s p b :
  StronglySorted Z.lt (prices s b) ->
  (forall x, x ∈ prices s b <-> is_Some (levels s b !! x)) ->
  let b' := cleanup_level_if_empty s p b in
  frame s b b' /\
  (levels s b !! p = Some [] ->
     exists l1 l2, prices s b = l1 ++ p :: l2 /\ prices s b' = l1 ++ l2 /\
       levels s b' = delete p (levels s b)) /\
  (levels s b !! p <> Some [] -> b' = b) /\
  StronglySorted Z.lt (prices s b') /\
  (forall x, x ∈ prices s b' <-> is_Some (levels s b' !! x)).
Proof.
  intros Hso Hdo b'.
  destruct (decide (levels s b !! p = Some [])) as [Hl|Hl].
  - assert (Hp : p ∈ prices s b) by (apply Hdo; rewrite Hl; by eexists).
    destruct (cleanup_spec s p b Hso Hp Hl) as (l1 & l2 & Hps & Hc).
    assert (Hndp : NoDup (l1 ++ p :: l2)) by (rewrite <- Hps; by apply sorted_NoDup).
    subst b'. rewrite Hc.
    split; [eapply frame_trans; [apply frame_set_levels|apply frame_set_prices]|].
    autorewrite with book_access.
    split; [intros _; by exists l1, l2|]. split; [done|]. split.
    + rewrite Hps in Hso. apply StronglySorted_app in Hso as (H1 & H2 & H3).
      apply StronglySorted_cons in H3 as [_ H3].
      apply StronglySorted_app. split; [|done]. intros x1 x2 ? ?. apply H1; set_solver.
    + intros x. rewrite lookup_delete. case_decide as E.
      * subst x. split; [|intros [? Hx]; done].
        intros Hin. apply NoDup_app in Hndp as (_ & Hdis & Hnd2).
        apply NoDup_cons in Hnd2 as [Hn2 _].
        apply elem_of_app in Hin as [Hin|Hin]; [|done]. exfalso; apply (Hdis p Hin); left.
      * rewrite <- Hdo, Hps. rewrite !elem_of_app, elem_of_cons. naive_solver.
  - assert (Hb : b' = b).
    { subst b'. unfold cleanup_level_if_empty.
      destruct (levels s b !! p) as [[|]|]; done. }
    rewrite Hb. split; [apply frame_refl|]. split; [done|]. done.
Qed.

(** X4: On a well-formed side, popping at a missing or empty level returns the book unchanged and nothing. At a non-empty level it drops only ineligible entries from the front: it returns the first eligible order, left at the front of the level, or, when none is left, deletes the level and removes its price. *)
Theorem pop_next_active_at_price_correct s p b :
  StronglySorted Z.lt (prices s b) ->
  (forall x, x ∈ prices s b <-> is_Some (levels s b !! x)) ->
  (levels s b !! p = None \/ levels s b !! p = Some [] ->
     pop_next_active_at_price s p b = (b, None)) /\
  (forall q, levels s b !! p = Some q -> q <> [] ->
     let '(b', r) := pop_next_active_at_price s p b in
     frame s b b' /\
     exists dropped q', q = dropped ++ q' /\
       (forall x o, x ∈ dropped -> orders b !! x = Some o -> eligible o = false) /\
       match r with
       | Some (k, o) =>
           (exists q'', q' = k :: q'') /\ orders b !! k = Some o /\ eligible o = true /\
           levels s b' = <[p := q']> (levels s b) /\ prices s b' = prices s b
       | None =>
           q' = [] /\ levels s b' = delete p (levels s b) /\
           exists l1 l2, prices s b = l1 ++ p :: l2 /\ prices s b' = l1 ++ l2
       end).
Proof.
  intros Hso Hdo. split.
  - intros [Hl|Hl]; unfold pop_next_active_at_price; by rewrite Hl.
  - intros q Hq Hne. unfold pop_next_active_at_price. rewrite Hq.
    destruct q as [|x0 q0]; [done|].
    destruct (skip_ineligible (orders b) (x0 :: q0)) as [q' r] eqn:Esk.
    destruct (skip_ineligible_spec _ _ _ _ Esk) as (d & Hsplit & Hd & Hr).
    set (b1 := set_levels s (<[p := q']> (levels s b)) b).
    destruct r as [[k o]|].
    + split; [apply frame_set_levels|]. exists d, q'. split; [done|]. split; [done|].
      destruct Hr as (Hq' & Hk & He). subst b1. autorewrite with book_access. done.
    + subst q'.
      assert (Hp : p ∈ prices s b1) by (subst b1; autorewrite with book_access; apply Hdo; by eexists).
      assert (Hl1 : levels s b1 !! p = Some []) by (subst b1; autorewrite with book_access; by rewrite lookup_insert_eq).
      assert (Hso1 : StronglySorted Z.lt (prices s b1)) by (subst b1; by autorewrite with book_access).
      destruct (cleanup_spec s p b1 Hso1 Hp Hl1) as (l1 & l2 & Hps & Hc). rewrite Hc.
      split.
      { eapply frame_trans; [apply frame_set_levels|].
        eapply frame_trans; [apply frame_set_levels|apply frame_set_prices]. }
      exists d, []. split; [done|]. split; [done|].
      subst b1. autorewrite with book_access in *. rewrite delete_insert_eq.
      split; [done|]. split; [done|]. by exists l1, l2.
Qed.

Lemma add_resting_limit_shape o b p :
  Order.symbol o = symbol b -> Order.price_cents o = Some p ->
  let s := Order.side o in
  exists b', add_resting_limit o b = Ok (b', Order.with_status o RESTING) /\
    orders b' = <[Order.order_id o := Order.with_status o RESTING]> (orders b) /\
    symbol b' = symbol b /\
    levels s b' = <[p := lvl (levels s b) p ++ [Order.order_id o]]> (levels s b) /\
    prices s b' = match levels s b !! p with Some _ => prices s b | None => insort p (prices s b) end /\
    levels (opposite s) b' = levels (opposite s) b /\
    prices (opposite s) b' = prices (opposite s) b.
Proof.
  intros Hsym Hp s. unfold add_resting_limit. rewrite bool_decide_eq_true_2 by done.
  simpl. rewrite Hp. eexists. split; [done|].
  pose proof (opposite_ne s) as Hne.
  unfold ensure_price_level. fold s. unfold lvl. rewrite levels_set_orders.
  destruct (levels s b !! p) as [q|] eqn:E; autorewrite with book_access;
    rewrite ?levels_set_orders, ?prices_set_orders, ?E; simpl.
  - rewrite levels_set_levels_ne, levels_set_orders by done. repeat split; done.
  - rewrite ?levels_set_levels_ne, ?levels_set_prices, ?prices_set_prices_ne,
      ?prices_set_levels, ?levels_set_orders, ?prices_set_orders, ?E by done.
    rewrite lookup_insert_eq, insert_insert_eq. simpl. rewrite levels_set_levels_ne, levels_set_orders by done. repeat split; done.
Qed.

(** X5: Resting an order fails exactly when its symbol differs from the book's or it has no price, and every failure is a ValueError. *)
Theorem add_resting_limit_errors o b :
  (forall e, add_resting_limit o b = Err e -> e = ValueError) /\
  ((exists e, add_resting_limit o b = Err e) <->
     Order.symbol o <> symbol b \/ Order.price_cents o = None).
Proof.
  unfold add_resting_limit.
  destruct (bool_decide (Order.symbol o = symbol b)) eqn:E; simpl.
  - apply bool_decide_eq_true_1 in E.
    destruct (Order.price_cents o); split; try congruence.
    + split; [intros [e He]; done|intros [H|H]; done].
    + split; [by right|by eexists].
  - apply bool_decide_eq_false_1 in E. split; [congruence|].
    split; [by left|by eexists].
Qed.

(** X6: Resting an order of the book's symbol with price [p] always succeeds: it stores the order with status RESTING under its id (with no check for an existing id or for its prior status), appends the id to the end of the level at [p] of its side, adds [p] to the sorted price list only when that level was missing, and leaves the other side unchanged. *)
Theorem add_resting_limit_appends o b p :
  Order.symbol o = symbol b -> Order.price_cents o = Some p ->
  let s := Order.side o in
  exists b', add_resting_limit o b = Ok (b', Order.with_status o RESTING) /\
    orders b' = <[Order.order_id o := Order.with_status o RESTING]> (orders b) /\
    symbol b' = symbol b /\
    levels s b' = <[p := lvl (levels s b) p ++ [Order.order_id o]]> (levels s b) /\
    prices s b' = match levels s b !! p with Some _ => prices s b | None => insort p (prices s b) end /\
    levels (opposite s) b' = levels (opposite s) b /\
    prices (opposite s) b' = prices (opposite s) b.
Proof. apply add_resting_limit_shape. Qed.

Lemma sorted_last_max l p :
  StronglySorted Z.lt l -> last l = Some p <-> p ∈ l /\ forall q, q ∈ l -> q <= p.
Proof.
  intros Hs. rewrite last_Some. split.
  - intros [l' ->]. split; [set_solver|]. intros q Hq.
    apply elem_of_app in Hq as [Hq|Hq%list_elem_of_singleton]; [|lia].
    pose proof (StronglySorted_app_1_elem_of _ _ _ q p Hs Hq ltac:(left)). lia.
  - intros [Hp Hmax]. destruct (last l) as [x|] eqn:E.
    + apply last_Some in E as [l' ->]. exists l'.
      assert (Hx : x <= p) by (apply Hmax; set_solver).
      apply elem_of_app in Hp as [Hp|Hp%list_elem_of_singleton]; [|by subst].
      pose proof (StronglySorted_app_1_elem_of _ _ _ p x Hs Hp ltac:(left)). lia.
    + apply last_None in E as ->. by apply elem_of_nil in Hp.
Qed.

Lemma sorted_head_min l p :
  StronglySorted Z.lt l -> head l = Some p <-> p ∈ l /\ forall q, q ∈ l -> p <= q.
Proof.
  intros Hs. destruct l as [|x l]; simpl.
  - split; [done|]. intros [Hp _]. by apply elem_of_nil in Hp.
  - apply StronglySorted_cons in Hs as [Hf _]. rewrite Forall_forall in Hf. split.
    + intros [= <-]. split; [left|]. intros q [->|Hq]%elem_of_cons; [lia|]. pose proof (Hf q Hq). lia.
    + intros [[->|Hp]%elem_of_cons Hmin]; [done|].
      pose proof (Hf p Hp). assert (p <= x) by (apply Hmin; left). lia.
Qed.

(** X7: On sorted price lists, the best bid is the highest listed bid price and the best ask the lowest listed ask price, and each is None exactly when its side lists no price. *)
Theorem best_bid_ask_extremes b :
  StronglySorted Z.lt (bid_prices b) -> StronglySorted Z.lt (ask_prices b) ->
  (forall p, best_bid b = Some p <-> p ∈ bid_prices b /\ forall q, q ∈ bid_prices b -> q <= p) /\
  (best_bid b = None <-> bid_prices b = []) /\
  (forall p, best_ask b = Some p <-> p ∈ ask_prices b /\ forall q, q ∈ ask_prices b -> p <= q) /\
  (best_ask b = None <-> ask_prices b = []).
Proof.
  intros Hb Ha. unfold best_bid, best_ask. split; [intros p; by apply sorted_last_max|].
  split; [apply last_None|]. split; [intros p; by apply sorted_head_min|].
  destruct (ask_prices b); done.
Qed.

Lemma rev_drop {A} (l : list A) n : rev (drop n l) = take (length l - n) (rev l).
Proof.
  rewrite (rev_alt (drop n l)), (rev_alt l).
  change (rev_append ?x []) with (reverse x). by rewrite reverse_drop.
Qed.

Lemma level_total_acc os q acc :
  fold_left (fun total oid =>
               match os !! oid with
               | Some o => if eligible o then total + Order.remaining_qty o else total
               | None => total
               end) q acc = acc + level_total os q.
Proof.
  unfold level_total. revert acc. induction q as [|x q IH]; intros acc; simpl; [lia|].
  rewrite (IH (match os !! x with Some o => if eligible o then 0 + Order.remaining_qty o else 0 | None => 0 end)).
  rewrite IH. destruct (os !! x) as [o|]; [destruct (eligible o)|]; lia.
Qed.

Lemma level_total_cons os x q :
  level_total os (x :: q) =
    match os !! x with
    | Some o => if eligible o then Order.remaining_qty o else 0
    | None => 0
    end + level_total os q.
Proof.
  unfold level_total at 1. simpl. rewrite level_total_acc.
  destruct (os !! x) as [o|]; [destruct (eligible o)|]; lia.
Qed.

(** The total of a queue: non-negative, and zero exactly when no entry of
    the queue is an eligible order. *)
Lemma level_total_spec os q :
  0 <= level_total os q /\
  (level_total os q = 0 <-> forall x o, x ∈ q -> os !! x = Some o -> eligible o = false).
Proof.
  induction q as [|x q [IH1 IH2]].
  - split; [unfold level_total; simpl; lia|]. split; [|done]. intros _ x o Hx. by apply elem_of_nil in Hx.
  - rewrite level_total_cons.
    destruct (os !! x) as [o|] eqn:Ex; [destruct (eligible o) eqn:He|].
    + assert (Hp : 0 < Order.remaining_qty o).
      { unfold eligible in He. apply andb_true_iff in He as [_ He]. by apply bool_decide_eq_true_1 in He. }
      split; [lia|]. split; [lia|]. intros H. rewrite (H x o ltac:(left) Ex) in He. done.
    + split; [lia|]. rewrite Z.add_0_l, IH2. split.
      * intros H y oy [->|Hy]%elem_of_cons Hoy; [congruence|eauto].
      * intros H y oy Hy Hoy. apply (H y oy); [by right|done].
    + split; [lia|]. rewrite Z.add_0_l, IH2. split.
      * intros H y oy [->|Hy]%elem_of_cons Hoy; [congruence|eauto].
      * intros H y oy Hy Hoy. apply (H y oy); [by right|done].
Qed.

Lemma map_fst_pair {A B} (f : A -> B) l : map fst (map (fun x => (x, f x)) l) = l.
Proof. induction l as [|x l IH]; simpl; [done|by rewrite IH]. Qed.

(** X8: For a positive depth, the snapshot gives at most [depth] bid prices, highest first, and at most [depth] ask prices, lowest first; each total is non-negative and is zero exactly when no order of the level is active with a positive remaining quantity. *)
Theorem snapshot_l2_positive_depth depth b :
  0 < depth ->
  let '(bids_out, asks_out) := snapshot_l2 depth b in
  map fst bids_out = take (Z.to_nat depth) (rev (bid_prices b)) /\
  map fst asks_out = take (Z.to_nat depth) (ask_prices b) /\
  (forall p t, (p, t) ∈ bids_out -> 0 <= t /\
     (t = 0 <-> forall x o, x ∈ lvl (bids b) p -> orders b !! x = Some o -> eligible o = false)) /\
  (forall p t, (p, t) ∈ asks_out -> 0 <= t /\
     (t = 0 <-> forall x o, x ∈ lvl (asks b) p -> orders b !! x = Some o -> eligible o = false)).
Proof.
  intros Hd. unfold snapshot_l2. split; [|split; [|split]].
  - rewrite map_fst_pair.
    unfold py_slice_from, py_norm. rewrite rev_drop.
    destruct (-depth <? 0) eqn:E; [|apply Z.ltb_ge in E; lia].
    destruct (decide (depth <= Z.of_nat (length (bid_prices b)))).
    + f_equal. lia.
    + rewrite !take_ge; rewrite ?length_rev; [done|lia|lia].
  - rewrite map_fst_pair.
    unfold py_slice_to, py_norm. destruct (depth <? 0) eqn:E; [apply Z.ltb_lt in E; lia|].
    destruct (decide (depth <= Z.of_nat (length (ask_prices b)))).
    + f_equal. lia.
    + rewrite !take_ge; [done|lia|lia].
  - intros p t Hin. apply list_elem_of_In, in_map_iff in Hin as (p' & [= <- <-] & _).
    apply level_total_spec.
  - intros p t Hin. apply list_elem_of_In, in_map_iff in Hin as (p' & [= <- <-] & _).
    apply level_total_spec.
Qed.

(** X9: For a negative depth, the snapshot drops the [|depth|] worst levels of each side: it gives all but the [|depth|] lowest bid prices, highest first, and all but the [|depth|] highest ask prices, lowest first. *)
Theorem snapshot_l2_negative_depth depth b :
  depth < 0 ->
  let '(bids_out, asks_out) := snapshot_l2 depth b in
  map fst bids_out = take (length (bid_prices b) - Z.to_nat (- depth)) (rev (bid_prices b)) /\
  map fst asks_out = take (length (ask_prices b) - Z.to_nat (- depth)) (ask_prices b).
Proof.
  intros Hd. unfold snapshot_l2. split.
  - rewrite map_fst_pair. unfold py_slice_from, py_norm. rewrite rev_drop.
    destruct (-depth <? 0) eqn:E; [apply Z.ltb_lt in E; lia|]. f_equal. lia.
  - rewrite map_fst_pair. unfold py_slice_to, py_norm.
    destruct (depth <? 0) eqn:E; [|apply Z.ltb_ge in E; lia]. f_equal. lia.
Qed.

Lemma sum_maker_ge x ts tr :
  (forall tr', tr' ∈ ts -> 0 < Trade.qty tr') -> tr ∈ ts -> Trade.maker_order_id tr = x ->
  Trade.qty tr <= sum_maker x ts.
Proof.
  unfold sum_maker. induction ts as [|tr0 ts IH]; intros Hpos Hin Hx; [by apply elem_of_nil in Hin|].
  rewrite filter_cons.
  assert (Hrest : 0 <= sum_qty (filter (fun tr => Trade.maker_order_id tr = x) ts)).
  { clear IH Hin. assert (Hp : forall tr', tr' ∈ ts -> 0 < Trade.qty tr') by set_solver.
    clear Hpos. induction ts as [|t1 ts IH']; simpl; [lia|]. rewrite filter_cons.
    case_decide; simpl; [pose proof (Hp t1 ltac:(left))|]; (assert (0 <= sum_qty (filter (fun tr => Trade.maker_order_id tr = x) ts)) by (apply IH'; set_solver)); lia. }
  apply elem_of_cons in Hin as [->|Hin].
  - rewrite decide_True by done. simpl. lia.
  - pose proof (IH ltac:(set_solver) Hin Hx).
    case_decide; simpl; [pose proof (Hpos tr0 ltac:(left))|]; lia.
Qed.

(** Every trade of a [match_order] call: its quantity, its parties, and
    what its maker was before the call. *)
Lemma match_trades_spec env b t0 b' t' ts :
  book_inv b -> fresh b t0 -> match_order env b t0 = Ok (b', t', ts) ->
  forall tr, tr ∈ ts ->
    0 < Trade.qty tr /\ Trade.taker_order_id tr = Order.order_id t0 /\
    Trade.symbol tr = symbol b /\
    exists o0, orders b !! Trade.maker_order_id tr = Some o0 /\ eligible o0 = true /\
      Order.side o0 = opposite (Order.side t0) /\
      Trade.price_cents tr = Order.price_cents o0 /\
      sum_maker (Trade.maker_order_id tr) ts <= Order.remaining_qty o0.
Proof.
  intros Hinv Hf Hm tr Hin.
  destruct (match_order_spec env b t0 Hinv Hf) as (b2 & t2 & ts2 & Hm2 & Hpost).
  rewrite Hm in Hm2. injection Hm2 as <- <- <-.
  destruct Hpost as [Hinv' _ _ _ _ _ Hmk Htr].
  assert (Hpos : forall tr', tr' ∈ ts -> 0 < Trade.qty tr').
  { intros tr' Hin'. apply list_elem_of_lookup in Hin' as [j Hj]. apply (Htr j tr' Hj). }
  apply list_elem_of_lookup in Hin as [j Hj].
  destruct (Htr j tr Hj) as (Htk & Hsy & Hq & (o0 & Ho0 & Hpr & Hfl) & _).
  split; [done|]. split; [done|]. split; [done|].
  exists o0. split; [done|].
  destruct (Hmk _ o0 Ho0) as (o & Ho & _ & Hdec & _).
  pose proof (sum_maker_ge (Trade.maker_order_id tr) ts tr Hpos ltac:(by eapply list_elem_of_lookup_2) eq_refl).
  pose proof (bi_orders _ Hinv' _ o Ho) as (_ & _ & _ & _ & Hb & _).
  pose proof (bi_orders _ Hinv _ o0 Ho0) as Hok0.
  assert (Hr0 : 0 < Order.remaining_qty o0) by lia.
  split.
  { destruct Hok0 as (_ & _ & _ & _ & _ & [(_ & Ha & _)|(_ & _ & Hz)]); [|lia].
    unfold eligible. rewrite Ha. simpl. by apply bool_decide_eq_true_2. }
  split.
  { apply (elem_of_flat _ _ _ (bi_side _ Hinv _)) in Hfl as (p & q & Hq' & Hx).
    destruct (si_ref _ _ (bi_side _ Hinv _) p q _ Hq' Hx) as (o1 & Ho1 & Hs1 & _).
    congruence. }
  split; [done|]. lia.
Qed.

(** Why a pass of the loop breaks: every price listed on the opposite side
    is out of the taker's reach. *)
Lemma match_step_break env b t ts b' tp :
  book_inv b -> Order.price_cents t = Some tp -> match_step env b t ts = Ok (Break b') ->
  forall p, p ∈ prices (opposite (Order.side t)) b' -> outside (Order.side t) tp p.
Proof.
  intros Hinv Htp Hs p Hp. unfold match_step in Hs.
  destruct (crosses b t) as [[]|e] eqn:Ec; [|injection Hs as <-|done].
  - destruct (get_best_resting_spec (opposite (Order.side t)) b Hinv)
      as (b1 & r & Hg & _ & _ & _ & Hr).
    rewrite Hg in Hs. destruct r as [[k m]|]; [done|]. injection Hs as <-.
    destruct Hr as [Hnil _]. rewrite Hnil in Hp. by apply elem_of_nil in Hp.
  - unfold crosses in Ec. rewrite Htp in Ec.
    pose proof (si_sorted _ _ (bi_side _ Hinv (opposite (Order.side t)))) as Hso.
    destruct (Order.side t); simpl in *.
    + unfold best_ask in Ec. destruct (ask_prices b) as [|a l] eqn:E; [by apply elem_of_nil in Hp|].
      simpl in Ec. injection Ec as Ec. apply negb_false_iff, Z.ltb_lt in Ec.
      assert (a <= p); [|lia].
      by apply (proj1 (sorted_head_min (a :: l) a Hso) eq_refl).
    + unfold best_bid in Ec. destruct (last (bid_prices b)) as [bd|] eqn:E.
      * injection Ec as Ec. apply negb_false_iff, Z.ltb_lt in Ec.
        assert (p <= bd); [|lia].
        by apply (proj1 (sorted_last_max (bid_prices b) bd Hso) E).
      * apply last_None in E. rewrite E in Hp. by apply elem_of_nil in Hp.
Qed.

Lemma match_loop_exit env fuel b0 t0 b t ts :
  loop_inv b0 t0 b t ts -> (Z.to_nat (Order.remaining_qty t) <= fuel)%nat ->
  exists b' t' ts', match_loop env fuel b t ts = Ok (b', t', ts') /\ loop_inv b0 t0 b' t' ts' /\
    (0 < Order.remaining_qty t' -> forall p tp, p ∈ prices (opposite (Order.side t0)) b' ->
       Order.price_cents t0 = Some tp -> outside (Order.side t0) tp p).
Proof.
  revert b t ts. induction fuel as [|fuel IH]; intros b t ts Hli Hf; simpl.
  - destruct (0 <? Order.remaining_qty t) eqn:E; [apply Z.ltb_lt in E; lia|].
    apply Z.ltb_ge in E. do 3 eexists. split; [done|]. split; [done|]. lia.
  - destruct (0 <? Order.remaining_qty t) eqn:E;
      [|apply Z.ltb_ge in E; do 3 eexists; split; [done|]; split; [done|]; lia].
    apply Z.ltb_lt in E.
    destruct (match_step_spec env b0 t0 b t ts Hli E) as ([b'|b' t' ts'] & Hs & Hr).
    + rewrite Hs. do 3 eexists. split; [done|]. split; [done|].
      intros _ p tp Hp Htp.
      assert (Hst : static t = static t0) by apply Hli.
      rewrite <- (static_side _ _ Hst) in Hp |- *. rewrite <- (static_price _ _ Hst) in Htp.
      eapply match_step_break; [apply (li_book _ _ _ _ _ Hli)|exact Htp|exact Hs|exact Hp].
    + rewrite Hs. destruct Hr as [Hli' Hlt]. apply IH; [done|].
      pose proof (li_taker_rem _ _ _ _ _ Hli'). lia.
Qed.

(** [match_order] on a LIMIT taker of the book's symbol: the loop, then
    resting what is left. *)
Lemma match_order_full env b t0 :
  book_inv b -> fresh b t0 -> Order.symbol t0 = symbol b -> Order.type t0 = LIMIT ->
  exists b1 t1 ts, loop_inv b t0 b1 t1 ts /\
    (0 < Order.remaining_qty t1 -> forall p tp, p ∈ prices (opposite (Order.side t0)) b1 ->
       Order.price_cents t0 = Some tp -> outside (Order.side t0) tp p) /\
    match_order env b t0 =
      if 0 <? Order.remaining_qty t1 then
        match add_resting_limit t1 b1 with
        | Ok (b2, t2) => Ok (b2, t2, ts)
        | Err e => Err e
        end
      else Ok (b1, t1, ts).
Proof.
  intros Hinv Hf Hsym Hty.
  pose proof (loop_inv_init b t0 Hinv Hf Hsym Hty) as Hli0.
  destruct (match_loop_exit env (Z.to_nat (Order.remaining_qty t0)) b t0 b t0 [] Hli0 (le_n _))
    as (b1 & t1 & ts & Hl & Hli & Hex).
  exists b1, t1, ts. split; [done|]. split; [done|].
  unfold match_order. rewrite bool_decide_eq_true_2 by done. simpl. rewrite Hty, Hl. done.
Qed.

(** The three ways a [match_order] call with a fresh taker ends. *)
Lemma match_order_cases env b t0 b' t' ts :
  book_inv b -> fresh b t0 -> match_order env b t0 = Ok (b', t', ts) ->
  (b' = b /\ Order.status t' = REJECTED /\ ts = []) \/
  exists b1 t1, loop_inv b t0 b1 t1 ts /\ Order.symbol t0 = symbol b /\ Order.type t0 = LIMIT /\
    ((Order.remaining_qty t1 = 0 /\ Order.status t1 = FILLED /\ b' = b1 /\ t' = t1) \/
     (0 < Order.remaining_qty t1 /\ t' = Order.with_status t1 RESTING /\
      exists tp, Order.price_cents t0 = Some tp /\
        (forall p, p ∈ prices (opposite (Order.side t0)) b1 -> outside (Order.side t0) tp p) /\
        orders b' = <[Order.order_id t0 := t']> (orders b1) /\ symbol b' = symbol b1 /\
        levels (Order.side t0) b' =
          <[tp := lvl (levels (Order.side t0) b1) tp ++ [Order.order_id t0]]> (levels (Order.side t0) b1) /\
        prices (Order.side t0) b' =
          match levels (Order.side t0) b1 !! tp with
          | Some _ => prices (Order.side t0) b1
          | None => insort tp (prices (Order.side t0) b1)
          end /\
        levels (opposite (Order.side t0)) b' = levels (opposite (Order.side t0)) b1 /\
        prices (opposite (Order.side t0)) b' = prices (opposite (Order.side t0)) b1)).
Proof.
  intros Hinv Hf Hm.
  destruct (decide (Order.symbol t0 = symbol b /\ Order.type t0 = LIMIT)) as [[Hsym Hty]|Hno].
  - right. destruct (match_order_full env b t0 Hinv Hf Hsym Hty) as (b1 & t1 & ts1 & Hli & Hex & Heq).
    rewrite Hm in Heq.
    pose proof Hli as [_ _ Hs1 _ _ _ _ Hnew Hst Hrem Htst _ _ _].
    destruct (fresh_spec _ _ Hf) as (_ & _ & Hr0 & Hq0 & _).
    destruct (0 <? Order.remaining_qty t1) eqn:Epos.
    + apply Z.ltb_lt in Epos. destruct Hnew as (_ & _ & [tp Htp] & Hsy0 & _).
      assert (Htp1 : Order.price_cents t1 = Some tp) by (by rewrite (static_price _ _ Hst)).
      assert (Hsy1 : Order.symbol t1 = symbol b1) by (rewrite (static_symbol _ _ Hst); congruence).
      destruct (add_resting_limit_shape t1 b1 tp Hsy1 Htp1)
        as (b2 & Hadd & Ho2 & Hs2 & Hl2 & Hp2 & Hlo2 & Hpo2).
      rewrite Hadd in Heq. injection Heq as Hb Ht Hts. subst b' t' ts.
      exists b1, t1. split; [done|]. split; [done|]. split; [done|]. right.
      split; [done|]. split; [done|]. exists tp. split; [done|].
      split; [intros p Hp; by apply (Hex Epos p tp Hp Htp)|].
      rewrite <- (static_side _ _ Hst), <- (static_id _ _ Hst). done.
    + apply Z.ltb_ge in Epos. injection Heq as Hb Ht Hts. subst b' t' ts.
      exists b1, t1. split; [done|]. split; [done|]. split; [done|]. left.
      destruct Htst as [[-> _]|[(_ & _ & Hz)|(Hfl & _ & Hz)]]; [lia|lia|done].
  - left. unfold match_order in Hm.
    destruct (bool_decide (Order.symbol t0 = symbol b)) eqn:Es; simpl in Hm.
    + apply bool_decide_eq_true_1 in Es.
      destruct (Order.type t0) eqn:Et; [tauto|]. by injection Hm as <- <- <-.
    + by injection Hm as <- <- <-.
Qed.

(** X10: When a call on a reachable book with a freshly built taker leaves the taker resting at limit [tp], every price left on the opposite side is beyond the taker's limit: above it for a BUY, below it for a SELL. *)
Theorem match_order_rests_out_of_reach env b t0 b' t' ts tp :
  reachable b -> fresh b t0 -> match_order env b t0 = Ok (b', t', ts) ->
  Order.status t' = RESTING -> Order.price_cents t0 = Some tp ->
  forall p, p ∈ prices (opposite (Order.side t0)) b' -> outside (Order.side t0) tp p.
Proof.
  intros Hr Hf Hm Hst Htp p Hp.
  destruct (match_order_cases env b t0 b' t' ts (reachable_inv _ Hr) Hf Hm)
    as [(_ & Hrej & _)|(b1 & t1 & Hli & _ & _ & [(_ & Hfl & _ & ->)|(_ & _ & tp' & Htp' & Hex & _ & _ & _ & _ & _ & Hpo)])];
    [congruence|congruence|].
  rewrite Htp in Htp'. injection Htp' as <-. apply Hex. by rewrite <- Hpo.
Qed.

(** X11: A LIMIT taker of the book's symbol with a positive quantity whose limit does not reach the best opposite price (or with an empty opposite side) trades nothing: the call is exactly resting the taker in the book. *)
Theorem match_order_no_cross_rests env b t0 tp :
  Order.symbol t0 = symbol b -> Order.type t0 = LIMIT -> 0 < Order.remaining_qty t0 ->
  Order.price_cents t0 = Some tp ->
  (forall p, best (opposite (Order.side t0)) b = Some p -> outside (Order.side t0) tp p) ->
  match_order env b t0 =
    match add_resting_limit t0 b with
    | Ok (b', t') => Ok (b', t', [])
    | Err e => Err e
    end.
Proof.
  intros Hsym Hty Hpos Htp Hout.
  assert (Hc : crosses b t0 = Ok false).
  { unfold crosses. rewrite Htp. destruct (Order.side t0) eqn:Es; simpl in Hout.
    - destruct (best_ask b) as [a|]; [|done].
      pose proof (Hout a eq_refl). simpl in *. do 2 f_equal. apply negb_false_iff, Z.ltb_lt. lia.
    - destruct (best_bid b) as [bd|]; [|done].
      pose proof (Hout bd eq_refl). simpl in *. do 2 f_equal. apply negb_false_iff, Z.ltb_lt. lia. }
  unfold match_order. rewrite bool_decide_eq_true_2 by done. simpl. rewrite Hty.
  destruct (Z.to_nat (Order.remaining_qty t0)) as [|n] eqn:En; [lia|]. simpl.
  assert (E0 : (0 <? Order.remaining_qty t0) = true) by (by apply Z.ltb_lt). rewrite E0.
  unfold match_step. rewrite Hc. rewrite E0. done.
Qed.

Lemma flat_same s b b' : levels s b' = levels s b -> prices s b' = prices s b -> flat s b' = flat s b.
Proof. intros Hl Hp. unfold flat. rewrite !best_first_of, Hl, Hp. done. Qed.

Lemma flat_order s b x : book_inv b -> x ∈ flat s b -> exists o, orders b !! x = Some o /\ Order.side o = s.
Proof.
  intros Hinv Hx. apply (elem_of_flat _ _ _ (bi_side _ Hinv s)) in Hx as (p & q & Hq & Hx).
  destruct (si_ref _ _ (bi_side _ Hinv s) p q x Hq Hx) as (o & Ho & Hs & _). eauto.
Qed.

(** X12: On a reachable book with a freshly built taker, the call removes only a front part of the opposite side's price-time queue, and every order it removes is left with remaining quantity 0. The taker's own side changes only when the taker rests, and then only by appending its id at the end of the level at its limit price and, when that level was missing, inserting that price into the sorted price list. *)
Theorem match_order_sides env b t0 b' t' ts :
  reachable b -> fresh b t0 -> match_order env b t0 = Ok (b', t', ts) ->
  let s := Order.side t0 in
  (exists pre, flat (opposite s) b = pre ++ flat (opposite s) b' /\
     forall x o, x ∈ pre -> orders b' !! x = Some o -> Order.remaining_qty o = 0) /\
  (Order.status t' = RESTING -> exists tp, Order.price_cents t0 = Some tp /\
     levels s b' = <[tp := lvl (levels s b) tp ++ [Order.order_id t0]]> (levels s b) /\
     prices s b' = match levels s b !! tp with
                   | Some _ => prices s b
                   | None => insort tp (prices s b)
                   end) /\
  (Order.status t' <> RESTING -> levels s b' = levels s b /\ prices s b' = prices s b).
Proof.
  intros Hr Hf Hm s. subst s. pose proof (reachable_inv _ Hr) as Hinv.
  destruct (match_order_cases env b t0 b' t' ts Hinv Hf Hm)
    as [(-> & Hrej & _)|(b1 & t1 & Hli & _ & _ & [(_ & Hfl & -> & ->)|(_ & -> & tp & Htp & _ & Ho' & _ & Hl' & Hp' & Hlo' & Hpo')])].
  - split; [exists []; split; [done|]; intros x o Hx; by apply elem_of_nil in Hx|].
    split; [congruence|done].
  - pose proof Hli as [_ _ _ Hown Hownp _ _ _ _ _ _ _ Hflat _].
    split; [done|]. split; [congruence|done].
  - pose proof Hli as [_ _ _ Hown Hownp _ Hout _ _ _ _ _ (pre & Hpre & Hz) _].
    split; [|split; [intros _; exists tp; split; [done|];
      split; [by rewrite Hl', Hown|by rewrite Hp', Hown, Hownp]|done]].
    exists pre. rewrite (flat_same _ b1 b' Hlo' Hpo'). split; [done|].
    intros x o Hx Hxo. rewrite Ho' in Hxo.
    destruct (flat_order (opposite (Order.side t0)) b x Hinv ltac:(rewrite Hpre; set_solver)) as (ox & Hox & _).
    rewrite lookup_insert_ne in Hxo by congruence. by apply (Hz x o).
Qed.

Lemma eligible_iff o : eligible o = true <-> Order.active o = true /\ 0 < Order.remaining_qty o.
Proof. unfold eligible. rewrite andb_true_iff, bool_decide_eq_true. done. Qed.

Lemma sum_maker_nonneg x ts :
  (forall tr, tr ∈ ts -> 0 < Trade.qty tr) -> 0 <= sum_maker x ts.
Proof.
  unfold sum_maker. induction ts as [|tr ts IH]; intros Hp; simpl; [lia|].
  rewrite filter_cons. assert (0 <= sum_qty (filter (fun tr => Trade.maker_order_id tr = x) ts))
    by (apply IH; set_solver).
  case_decide; simpl; [pose proof (Hp tr ltac:(left))|]; lia.
Qed.

(** An order eligible after some passes of the loop was eligible before
    the call. *)
Lemma loop_eligible b t0 b1 t1 ts x o :
  loop_inv b t0 b1 t1 ts -> orders b1 !! x = Some o -> eligible o = true ->
  exists o0, orders b !! x = Some o0 /\ eligible o0 = true /\ static o = static o0.
Proof.
  intros Hli Hx He. pose proof Hli as [Hinv0 _ _ _ _ Hdom _ _ _ _ _ Hmk _ Htr].
  destruct (proj1 (Hdom x) ltac:(by eexists)) as [o0 Ho0].
  destruct (Hmk x o0 Ho0) as (o' & Ho' & Hst & Hdec & _). rewrite Hx in Ho'. injection Ho' as <-.
  assert (Hpos : forall tr, tr ∈ ts -> 0 < Trade.qty tr).
  { intros tr Hin. apply list_elem_of_lookup in Hin as [j Hj]. apply (Htr j tr Hj). }
  pose proof (sum_maker_nonneg x ts Hpos).
  apply eligible_iff in He as [_ Hr].
  exists o0. split; [done|]. split; [|done]. apply eligible_iff.
  destruct (bi_orders _ Hinv0 x o0 Ho0) as (_ & _ & _ & _ & _ & [(_ & Ha & _)|(_ & _ & Hz)]); [|lia].
  split; [done|lia].
Qed.

Lemma lvl_Some L p x : x ∈ lvl L p -> exists q, L !! p = Some q /\ x ∈ q.
Proof. unfold lvl. destruct (L !! p) as [q|]; simpl; [eauto|intros Hx; by apply elem_of_nil in Hx]. Qed.

Lemma listed_shift s b b' pre x o p :
  side_inv s b -> side_inv s b' -> flat s b = pre ++ flat s b' -> x ∉ pre ->
  orders b' !! x = Some o -> Order.price_cents o = Some p ->
  x ∈ lvl (levels s b) p -> x ∈ lvl (levels s b') p.
Proof.
  intros Hsi Hsi' Hfl Hpre Hx Hp Hl.
  destruct (lvl_Some _ _ _ Hl) as (q & Hq & Hxq).
  assert (Hin : x ∈ flat s b) by (apply (elem_of_flat _ _ _ Hsi); eauto).
  rewrite Hfl in Hin. apply elem_of_app in Hin as [Hin|Hin]; [done|].
  apply (elem_of_flat _ _ _ Hsi') in Hin as (p' & q' & Hq' & Hxq').
  destruct (si_ref _ _ Hsi' p' q' x Hq' Hxq') as (o' & Ho' & _ & Hp').
  rewrite Hx in Ho'. injection Ho' as <-. rewrite Hp in Hp'. injection Hp' as <-.
  unfold lvl. by rewrite Hq'.
Qed.

Lemma loop_listed_uncrossed b t0 b1 t1 ts :
  loop_inv b t0 b1 t1 ts -> listed b -> uncrossed b -> listed b1 /\ uncrossed b1.
Proof.
  intros Hli Hl Hu. pose proof Hli as [Hinv0 Hinv1 _ Hown _ _ _ _ _ _ _ _ (pre & Hpre & Hz) _].
  split.
  - intros x o Hx He.
    destruct (loop_eligible _ _ _ _ _ x o Hli Hx He) as (o0 & Ho0 & He0 & Hst).
    destruct (Hl x o0 Ho0 He0) as (p & Hp & Hxl).
    exists p. rewrite (static_price _ _ Hst), (static_side _ _ Hst). split; [done|].
    destruct (decide (Order.side o0 = Order.side t0)) as [Es|Es].
    + by rewrite Es, Hown; rewrite Es in Hxl.
    + apply other_side in Es. rewrite Es in Hxl |- *.
      apply (listed_shift _ b b1 pre x o p); try apply bi_side; try done.
      * intros Hin. pose proof (Hz x o Hin Hx). apply eligible_iff in He. lia.
      * by rewrite (static_price _ _ Hst).
  - intros x y ox oy px py Hx Hy Hsx Hsy Hex Hey Hpx Hpy.
    destruct (loop_eligible _ _ _ _ _ x ox Hli Hx Hex) as (ox0 & Hox0 & Hex0 & Hstx).
    destruct (loop_eligible _ _ _ _ _ y oy Hli Hy Hey) as (oy0 & Hoy0 & Hey0 & Hsty).
    apply (Hu x y ox0 oy0); try done.
    + by rewrite <- (static_side _ _ Hstx).
    + by rewrite <- (static_side _ _ Hsty).
    + by rewrite <- (static_price _ _ Hstx).
    + by rewrite <- (static_price _ _ Hsty).
Qed.

Lemma price_listed s b p q : side_inv s b -> levels s b !! p = Some q -> p ∈ prices s b.
Proof. intros Hsi Hq. apply (si_dom _ _ Hsi). by eexists. Qed.

Lemma match_listed_uncrossed env b t0 b' t' ts :
  book_inv b -> fresh b t0 -> match_order env b t0 = Ok (b', t', ts) ->
  listed b -> uncrossed b -> listed b' /\ uncrossed b'.
Proof.
  intros Hinv Hf Hm Hl Hu.
  destruct (match_order_cases env b t0 b' t' ts Hinv Hf Hm)
    as [(-> & _)|(b1 & t1 & Hli & _ & _ & [(_ & _ & -> & ->)|(_ & -> & tp & Htp & Hex & Ho' & _ & Hl' & _ & Hlo' & _)])];
    [done|by apply (loop_listed_uncrossed b t0 b1 t1 ts)|].
  destruct (loop_listed_uncrossed b t0 b1 t1 ts Hli Hl Hu) as [Hl1 Hu1].
  pose proof Hli as [_ Hinv1 _ _ _ _ _ _ Hst _ _ _ _ _].
  set (s := Order.side t0) in *. set (k := Order.order_id t0) in *.
  assert (Hs1 : Order.side (Order.with_status t1 RESTING) = s) by (simpl; by apply static_side).
  assert (Hp1 : Order.price_cents (Order.with_status t1 RESTING) = Some tp)
    by (simpl; by rewrite (static_price _ _ Hst)).
  (* an order other than the taker, eligible in [b1], on the side opposite
     to the taker, lies at a price out of the taker's reach *)
  assert (Hopp : forall y oy py, orders b1 !! y = Some oy -> eligible oy = true ->
            Order.side oy = opposite s -> Order.price_cents oy = Some py -> outside s tp py).
  { intros y oy py Hy Hey Hsy Hpy. destruct (Hl1 y oy Hy Hey) as (py' & Hpy' & Hyl).
    rewrite Hpy in Hpy'. injection Hpy' as <-. rewrite Hsy in Hyl.
    destruct (lvl_Some _ _ _ Hyl) as (q & Hq & _).
    apply Hex. by apply (price_listed _ _ _ q (bi_side _ Hinv1 _)). }
  split.
  - intros x o Hx He. rewrite Ho' in Hx. rewrite lookup_insert in Hx.
    case_decide as Ex.
    + injection Hx as <-. subst x. exists tp. split; [done|]. rewrite Hs1, Hl'.
      unfold lvl at 1. rewrite lookup_insert_eq. simpl. set_solver.
    + destruct (Hl1 x o Hx He) as (p & Hp & Hxl). exists p. split; [done|].
      destruct (decide (Order.side o = s)) as [Es|Es].
      * rewrite Es, Hl'. rewrite Es in Hxl. unfold lvl at 1. rewrite lookup_insert.
        case_decide as Ep; [subst p; simpl; set_solver|done].
      * apply other_side in Es. by rewrite Es, Hlo'; rewrite Es in Hxl.
  - intros x y ox oy px py Hx Hy Hsx Hsy Hex' Hey Hpx Hpy.
    rewrite Ho', lookup_insert in Hx, Hy.
    case_decide as Ex; case_decide as Ey.
    + injection Hx as <-. injection Hy as <-. congruence.
    + injection Hy as <-. rewrite Hp1 in Hpy. injection Hpy as <-.
      assert (Es : s = SELL) by congruence.
      pose proof (Hopp x ox px Hx Hex' ltac:(by rewrite Es) Hpx) as Ho. rewrite Es in Ho. done.
    + injection Hx as <-. rewrite Hp1 in Hpx. injection Hpx as <-.
      assert (Es : s = BUY) by congruence.
      pose proof (Hopp y oy py Hy Hey ltac:(by rewrite Es) Hpy) as Ho. rewrite Es in Ho. done.
    + by apply (Hu1 x y ox oy).
Qed.

Lemma reachable_listed_uncrossed b : reachable b -> listed b /\ uncrossed b.
Proof.
  induction 1 as [sym|b env o b' o' trades Hr [IHl IHu] Hf Hm|b oid Hr [IHl IHu]|b s b' r Hr [IHl IHu] Hg].
  - split; intros x; simpl; rewrite lookup_empty; done.
  - by apply (match_listed_uncrossed env b o b' o' trades (reachable_inv _ Hr)).
  - unfold cancel.
    destruct (orders b !! oid) as [o|] eqn:Ho; [|done].
    destruct (negb (Order.active o) || (Order.remaining_qty o =? 0)) eqn:E; [done|simpl].
    split.
    + intros x o' Hx He. simpl in Hx. rewrite lookup_insert in Hx. case_decide as Ex.
      * injection Hx as <-. done.
      * rewrite levels_set_orders. by apply IHl.
    + intros x y ox oy px py Hx Hy Hsx Hsy Hex Hey. simpl in Hx, Hy.
      destruct (decide (x = oid)) as [->|Ex];
        [rewrite lookup_insert_eq in Hx; injection Hx as <-; done|rewrite lookup_insert_ne in Hx by done].
      destruct (decide (y = oid)) as [->|Ey];
        [rewrite lookup_insert_eq in Hy; injection Hy as <-; done|rewrite lookup_insert_ne in Hy by done].
      by apply (IHu x y ox oy).
  - pose proof (reachable_inv _ Hr) as Hinv.
    destruct (get_best_resting_spec s b Hinv)
      as (b2 & r2 & Hg2 & Hinv2 & (Hor & _ & Hlo & _) & (d & Hfd & Hd) & _).
    rewrite Hg in Hg2. injection Hg2 as <- <-.
    split.
    + intros x o Hx He. rewrite Hor in Hx. destruct (IHl x o Hx He) as (p & Hp & Hxl).
      exists p. split; [done|].
      destruct (decide (Order.side o = s)) as [Es|Es].
      * rewrite Es in Hxl |- *.
        apply (listed_shift _ b b' d x o p); try apply bi_side; try done.
        -- intros Hin. rewrite (Hd x o Hin Hx) in He. done.
        -- by rewrite Hor.
      * apply other_side in Es. by rewrite Es, Hlo; rewrite Es in Hxl.
    + intros x y ox oy px py Hx Hy. rewrite Hor in Hx, Hy. by apply (IHu x y ox oy).
Qed.

(** X13: On a reachable book with a freshly built taker, every trade of the call has a positive quantity, the taker's id and the book's symbol, and a maker that was in the book before the call, eligible, on the opposite side and at the trade's price; the trades against one maker never exceed its remaining quantity before the call. *)
Theorem match_order_trades env b t0 b' t' ts :
  reachable b -> fresh b t0 -> match_order env b t0 = Ok (b', t', ts) ->
  forall tr, tr ∈ ts ->
    0 < Trade.qty tr /\ Trade.taker_order_id tr = Order.order_id t0 /\
    Trade.symbol tr = symbol b /\
    exists o0, orders b !! Trade.maker_order_id tr = Some o0 /\ eligible o0 = true /\
      Order.side o0 = opposite (Order.side t0) /\
      Trade.price_cents tr = Order.price_cents o0 /\
      sum_maker (Trade.maker_order_id tr) ts <= Order.remaining_qty o0.
Proof. intros Hr. apply match_trades_spec, reachable_inv, Hr. Qed.

(** X14: In every reachable book, every eligible BUY order has a price strictly below that of every eligible SELL order. *)
Theorem reachable_uncrossed b : reachable b -> uncrossed b.
Proof. intros Hr. apply (reachable_listed_uncrossed b Hr). Qed.

(** X15: In every reachable book, every eligible order has a price and is listed in the level at that price on its side. *)
Theorem reachable_listed b : reachable b -> listed b.
Proof. intros Hr. apply (reachable_listed_uncrossed b Hr). Qed.

(** X16: Every reachable book is well formed: each side's price list is sorted and names exactly the existing levels, no level is empty or lists an id twice, every listed id is an order of that side at that price, and every stored order is a LIMIT order of the book's symbol under its own id, with a price, 0 <= remaining <= qty, and either RESTING or PARTIAL, active with a positive remaining quantity, or FILLED or CANCELED, inactive with nothing remaining. *)
Theorem reachable_well_formed b : reachable b -> book_inv b.
Proof. apply reachable_inv. Qed.

(** X17: Once [cancel] has canceled an order of a reachable book, no later [match_order] call with a freshly built taker, after any sequence of public operations, trades against that order as maker. *)
Theorem canceled_never_traded b oid b1 b2 env t b3 t3 ts :
  reachable b -> cancel oid b = (b1, true) -> rtc book_step b1 b2 -> fresh b2 t ->
  match_order env b2 t = Ok (b3, t3, ts) ->
  forall tr, tr ∈ ts -> Trade.maker_order_id tr <> oid.
Proof.
  intros Hr Hc Hsteps Hf Hm tr Htr Hmk.
  assert (Hr1 : reachable b1) by (replace b1 with (fst (cancel oid b)) by (by rewrite Hc); by apply reach_cancel).
  assert (Ho1 : exists o1, orders b1 !! oid = Some o1 /\ Order.status o1 = CANCELED).
  { unfold cancel in Hc. destruct (orders b !! oid) as [o|]; [|done].
    destruct (negb (Order.active o) || (Order.remaining_qty o =? 0)); [done|].
    injection Hc as <-. simpl. rewrite lookup_insert_eq. by eexists. }
  destruct Ho1 as (o1 & Ho1 & Hs1).
  destruct (book_steps_spec b1 b2 Hsteps Hr1) as (Hr2 & Hmv & _).
  destruct (Hmv oid o1 Ho1) as (o2 & Ho2 & Hm2).
  apply status_moves_terminal in Hm2; [|by rewrite Hs1]. rewrite Hs1 in Hm2.
  destruct (match_trades_spec env b2 t b3 t3 ts (reachable_inv _ Hr2) Hf Hm tr Htr)
    as (_ & _ & _ & o0 & Ho0 & He0 & _).
  rewrite Hmk, Ho2 in Ho0. injection Ho0 as <-.
  destruct (bi_orders _ (reachable_inv _ Hr2) oid o2 Ho2) as (_ & _ & _ & _ & _ & [([Hs|Hs] & _)|(_ & Ha & _)]);
    [congruence|congruence|].
  apply eligible_iff in He0. destruct He0 as [Ha' _]. congruence.
Qed.

Lemma reachable_bookC1 : reachable bookC1.
Proof.
  apply reachable_run_match; [|fresh_closed].
  apply reachable_run_match; [|fresh_closed].
  apply reachable_run_match; [apply reach_init|fresh_closed].
Qed.

Lemma reachable_sorted s b : reachable b -> StronglySorted Z.lt (prices s b).
Proof. intros Hr. apply (si_sorted _ _ (bi_side _ (reachable_inv _ Hr) s)). Qed.

Lemma reachable_dom s b : reachable b -> forall x, x ∈ prices s b <-> is_Some (levels s b !! x).
Proof. intros Hr. apply (si_dom _ _ (bi_side _ (reachable_inv _ Hr) s)). Qed.

Lemma ensure_price_level_correct_witness :
  let b' := ensure_price_level SELL 100 bookA in
  frame SELL bookA b' /\
  (100 ∈ prices SELL bookA -> b' = bookA) /\
  (100 ∉ prices SELL bookA -> levels SELL b' = <[100 := []]> (levels SELL bookA) /\
     prices SELL b' ≡ₚ 100 :: prices SELL bookA) /\
  StronglySorted Z.lt (prices SELL b') /\
  (forall x, x ∈ prices SELL b' <-> is_Some (levels SELL b' !! x)) /\
  ensure_price_level SELL 100 b' = b'.
Proof.
  apply ensure_price_level_correct; [apply reachable_sorted|apply reachable_dom]; apply reachable_bookA.
Defined.

Lemma cleanup_level_if_empty_correct_witness :
  let b' := cleanup_level_if_empty SELL 100 bookC1 in
  frame SELL bookC1 b' /\
  (levels SELL bookC1 !! 100 = Some [] ->
     exists l1 l2, prices SELL bookC1 = l1 ++ 100 :: l2 /\ prices SELL b' = l1 ++ l2 /\
       levels SELL b' = delete 100 (levels SELL bookC1)) /\
  (levels SELL bookC1 !! 100 <> Some [] -> b' = bookC1) /\
  StronglySorted Z.lt (prices SELL b') /\
  (forall x, x ∈ prices SELL b' <-> is_Some (levels SELL b' !! x)).
Proof.
  apply cleanup_level_if_empty_correct; [apply reachable_sorted|apply reachable_dom]; apply reachable_bookC1.
Defined.

Lemma pop_next_active_at_price_correct_witness :
  (levels SELL bookC1 !! 100 = None \/ levels SELL bookC1 !! 100 = Some [] ->
     pop_next_active_at_price SELL 100 bookC1 = (bookC1, None)) /\
  (forall q, levels SELL bookC1 !! 100 = Some q -> q <> [] ->
     let '(b', r) := pop_next_active_at_price SELL 100 bookC1 in
     frame SELL bookC1 b' /\
     exists dropped q', q = dropped ++ q' /\
       (forall x o, x ∈ dropped -> orders bookC1 !! x = Some o -> eligible o = false) /\
       match r with
       | Some (k, o) =>
           (exists q'', q' = k :: q'') /\ orders bookC1 !! k = Some o /\ eligible o = true /\
           levels SELL b' = <[100 := q']> (levels SELL bookC1) /\ prices SELL b' = prices SELL bookC1
       | None =>
           q' = [] /\ levels SELL b' = delete 100 (levels SELL bookC1) /\
           exists l1 l2, prices SELL bookC1 = l1 ++ 100 :: l2 /\ prices SELL b' = l1 ++ l2
       end).
Proof.
  apply pop_next_active_at_price_correct; [apply reachable_sorted|apply reachable_dom]; apply reachable_bookC1.
Defined.

Lemma add_resting_limit_appends_witness :
  exists b', add_resting_limit (lim "b" BUY 1 100) bookA =
      Ok (b', Order.with_status (lim "b" BUY 1 100) RESTING) /\
    orders b' = <["b" := Order.with_status (lim "b" BUY 1 100) RESTING]> (orders bookA) /\
    symbol b' = symbol bookA /\
    levels BUY b' = <[100 := lvl (levels BUY bookA) 100 ++ ["b"]]> (levels BUY bookA) /\
    prices BUY b' = match levels BUY bookA !! 100 with
                    | Some _ => prices BUY bookA
                    | None => insort 100 (prices BUY bookA)
                    end /\
    levels (opposite BUY) b' = levels (opposite BUY) bookA /\
    prices (opposite BUY) b' = prices (opposite BUY) bookA.
Proof. apply (add_resting_limit_appends (lim "b" BUY 1 100) bookA 100); reflexivity. Defined.

Lemma best_bid_ask_extremes_witness :
  (forall p, best_bid bookF = Some p <-> p ∈ bid_prices bookF /\ forall q, q ∈ bid_prices bookF -> q <= p) /\
  (best_bid bookF = None <-> bid_prices bookF = []) /\
  (forall p, best_ask bookF = Some p <-> p ∈ ask_prices bookF /\ forall q, q ∈ ask_prices bookF -> p <= q) /\
  (best_ask bookF = None <-> ask_prices bookF = []).
Proof.
  apply best_bid_ask_extremes; vm_compute; repeat constructor.
Defined.

Lemma snapshot_l2_positive_depth_witness :
  let '(bids_out, asks_out) := snapshot_l2 1 bookC10 in
  map fst bids_out = take 1 (rev (bid_prices bookC10)) /\
  map fst asks_out = take 1 (ask_prices bookC10) /\
  (forall p t, (p, t) ∈ bids_out -> 0 <= t /\
     (t = 0 <-> forall x o, x ∈ lvl (bids bookC10) p -> orders bookC10 !! x = Some o -> eligible o = false)) /\
  (forall p t, (p, t) ∈ asks_out -> 0 <= t /\
     (t = 0 <-> forall x o, x ∈ lvl (asks bookC10) p -> orders bookC10 !! x = Some o -> eligible o = false)).
Proof. apply (snapshot_l2_positive_depth 1 bookC10). lia. Defined.

Lemma snapshot_l2_negative_depth_witness :
  let '(bids_out, asks_out) := snapshot_l2 (-1) bookC10 in
  map fst bids_out = take (length (bid_prices bookC10) - 1) (rev (bid_prices bookC10)) /\
  map fst asks_out = take (length (ask_prices bookC10) - 1) (ask_prices bookC10).
Proof. apply (snapshot_l2_negative_depth (-1) bookC10). lia. Defined.

Lemma match_order_trades_witness :
  exists b' t' ts, match_order env0 bookA (lim "b" BUY 4 18760) = Ok (b', t', ts) /\
  forall tr, tr ∈ ts ->
    0 < Trade.qty tr /\ Trade.taker_order_id tr = "b" /\ Trade.symbol tr = symbol bookA /\
    exists o0, orders bookA !! Trade.maker_order_id tr = Some o0 /\ eligible o0 = true /\
      Order.side o0 = opposite BUY /\ Trade.price_cents tr = Order.price_cents o0 /\
      sum_maker (Trade.maker_order_id tr) ts <= Order.remaining_qty o0.
Proof.
  eexists _, _, _. split; [eval_lhs; reflexivity|].
  eapply (match_order_trades env0 bookA (lim "b" BUY 4 18760));
    [apply reachable_bookA|fresh_closed|eval_lhs; reflexivity].
Defined.

Lemma match_order_rests_out_of_reach_witness :
  exists b' t' ts, match_order env0 bookA (lim "b" BUY 12 18760) = Ok (b', t', ts) /\
    Order.status t' = RESTING /\
    forall p, p ∈ prices SELL b' -> outside BUY 18760 p.
Proof.
  eexists _, _, _. split; [eval_lhs; reflexivity|]. split; [reflexivity|].
  eapply (match_order_rests_out_of_reach env0 bookA (lim "b" BUY 12 18760));
    [apply reachable_bookA|fresh_closed|eval_lhs; reflexivity|reflexivity|reflexivity].
Defined.

Lemma match_order_no_cross_rests_witness :
  match_order env0 bookA (lim "b" BUY 1 100) =
    match add_resting_limit (lim "b" BUY 1 100) bookA with
    | Ok (b', t') => Ok (b', t', [])
    | Err e => Err e
    end.
Proof.
  apply (match_order_no_cross_rests env0 bookA (lim "b" BUY 1 100) 100); [reflexivity|reflexivity|simpl; lia|reflexivity|].
  intros p Hp. vm_compute in Hp. injection Hp as <-. simpl. lia.
Defined.

Lemma match_order_sides_witness :
  exists b' t' ts, match_order env0 bookA (lim "b" BUY 12 18760) = Ok (b', t', ts) /\
  (exists pre, flat SELL bookA = pre ++ flat SELL b' /\
     forall x o, x ∈ pre -> orders b' !! x = Some o -> Order.remaining_qty o = 0) /\
  (Order.status t' = RESTING -> exists tp, Some 18760 = Some tp /\
     levels BUY b' = <[tp := lvl (levels BUY bookA) tp ++ ["b"]]> (levels BUY bookA) /\
     prices BUY b' = match levels BUY bookA !! tp with
                     | Some _ => prices BUY bookA
                     | None => insort tp (prices BUY bookA)
                     end) /\
  (Order.status t' <> RESTING -> levels BUY b' = levels BUY bookA /\ prices BUY b' = prices BUY bookA).
Proof.
  eexists _, _, _. split; [eval_lhs; reflexivity|].
  eapply (match_order_sides env0 bookA (lim "b" BUY 12 18760));
    [apply reachable_bookA|fresh_closed|eval_lhs; reflexivity].
Defined.

Lemma reachable_uncrossed_witness : uncrossed bookA.
Proof. apply reachable_uncrossed, reachable_bookA. Defined.

Lemma reachable_listed_witness : listed bookA.
Proof. apply reachable_listed, reachable_bookA. Defined.

Lemma reachable_well_formed_witness : book_inv bookA.
Proof. apply reachable_well_formed, reachable_bookA. Defined.

Lemma canceled_never_traded_witness :
  cancel "s" bookA = (fst (cancel "s" bookA), true) /\
  exists b3 t3 ts, match_order env0 (fst (cancel "s" bookA)) (lim "b" BUY 1 18760) = Ok (b3, t3, ts) /\
    forall tr, tr ∈ ts -> Trade.maker_order_id tr <> "s".
Proof.
  split; [eval_lhs; reflexivity|].
  eexists _, _, _. split; [eval_lhs; reflexivity|].
  eapply (canceled_never_traded bookA "s" (fst (cancel "s" bookA)) (fst (cancel "s" bookA)) env0
           (lim "b" BUY 1 18760));
    [apply reachable_bookA|eval_lhs; reflexivity|apply rtc_refl|fresh_closed|eval_lhs; reflexivity].
Defined.
